(** * Session core of vue-aptos-wallets: a shallow embedding of [useWallets]

    The composable [useWallets] keeps a handful of Vue refs (the session
    fields), talks to externally owned wallet adapters through their event
    emitter interface, and persists the selected wallet name in
    [localStorage].  Every function of the composable is embedded as a
    computation over an explicit [World]: the refs of one [useWallets()]
    instance together with the surroundings the code touches (the adapter
    objects, [localStorage], [window], and a trace of the calls made to the
    outside).  The two [async] functions [connect] and [disconnect] are cut
    at their single [await]: the part before it runs when the function is
    called, the part after it runs when the adapter's promise settles.

    What lies outside the repository is modelled by its usual contract: the
    adapters' event emitter ([on], [off], emission), Vue's [watch] with
    [onCleanup], [localStorage], [JSON] and [window].  Line numbers in the
    comments are those of the composable's source file. *)

From Stdlib Require Import String List Bool Arith Lia.
From stdpp Require Import base option list functions gmap strings.
Import ListNotations.

Local Open Scope string_scope.
Local Open Scope list_scope.

(** ** Values of the adapter package *)

Abbreviation WalletName := string (only parsing).

(** Objects are compared by identity in JavaScript.  Adapter instances,
    error callbacks and the opaque payloads handed through are named by a
    number standing for that identity. *)
Abbreviation AdapterRef := nat (only parsing).
Abbreviation Handler := nat (only parsing).
Abbreviation AccountKeys := nat (only parsing).
Abbreviation NetworkInfo := nat (only parsing).
Abbreviation Payload := nat (only parsing).
Abbreviation Response := nat (only parsing).

Inductive WalletReadyState := Installed | NotDetected | Loadable | Unsupported.

Inductive Error :=
| WalletNotSelectedError
| WalletNotReadyError
| WalletNotConnectedError
| AdapterError (code : nat)      (* whatever an adapter rejects with *)
| ReferenceError                 (* [localStorage] is not defined *)
| QuotaExceededError             (* [setItem] could not store the value *)
| SyntaxError.                   (* [JSON.parse] on a text that is not JSON *)

Inductive EventName :=
| readyStateChange | accountChange | networkChange | disconnectEvent | errorEvent.

(** The function objects handed to [on] and [off].  The four session
    handlers are [const]s of the instance, hence one object each.  The arrow
    function [(isReady) => handleReadyStateChange(wAdapter, isReady)] is a
    new object each time the expression is evaluated: [fid] is its identity. *)
Inductive Fn :=
| ReadyStateArrow (fid : nat) (wAdapter : AdapterRef)
| handleAddressChangeFn
| handleNetworkChangeFn
| handleDisconnectFn
| handleErrorFn.

Record Listener := { l_event : EventName; l_fn : Fn; l_context : AdapterRef }.

#[global] Instance WalletReadyState_eq_dec : EqDecision WalletReadyState.
Proof. solve_decision. Defined.
#[global] Instance Error_eq_dec : EqDecision Error.
Proof. solve_decision. Defined.
#[global] Instance EventName_eq_dec : EqDecision EventName.
Proof. solve_decision. Defined.
#[global] Instance Fn_eq_dec : EqDecision Fn.
Proof. solve_decision. Defined.
#[global] Instance Listener_eq_dec : EqDecision Listener.
Proof. solve_decision. Defined.

Module Adapter.
(** The capability interface of a wallet adapter, as far as the
    composable reads it, plus the listeners its emitter holds. *)
Record t := {
  name : WalletName;
  url : string;
  readyState : WalletReadyState;
  connected : bool;
  publicAccount : option AccountKeys;
  network : option NetworkInfo;
  listeners : list Listener
}.

Definition set_listeners (ls : list Listener) (o : t) : t :=
  {| name := name o; url := url o; readyState := readyState o;
     connected := connected o; publicAccount := publicAccount o;
     network := network o; listeners := ls |}.

(** What the adapter may change about itself at any moment. *)
Definition set_status (r : WalletReadyState) (c : bool)
    (acc : option AccountKeys) (net : option NetworkInfo) (o : t) : t :=
  {| name := name o; url := url o; readyState := r; connected := c;
     publicAccount := acc; network := net; listeners := listeners o |}.
End Adapter.

Module Wallet.
(** A [{ adapter, readyState }] object literal; [id] is its identity. *)
Record t := { id : nat; adapter : AdapterRef; readyState : WalletReadyState }.
End Wallet.

#[global] Instance Wallet_eq_dec : EqDecision Wallet.t.
Proof. solve_decision. Defined.

(** What the ref [walletName] holds when it is not [null]: a name or, read
    back from a storage that other code wrote to, a JSON value that is not
    a string.  Of such a value the composable only sees that it is equal to
    no adapter name, and whether it is truthy. *)
Inductive Selection :=
| Name (name : WalletName)
| NotAName (truthy : bool).

#[global] Instance Selection_eq_dec : EqDecision Selection.
Proof. solve_decision. Defined.

(** A text held by [localStorage], as far as [getItem], [if (value)] and
    [JSON.parse] tell texts apart.  The composable writes
    [JSON.stringify(name)] only; other code may have put any text under the
    same key. *)
Inductive StoredItem :=
| JSON_stringify (name : WalletName)   (* the text [JSON.stringify(name)] *)
| JSON_null                            (* JSON for [null] *)
| JSON_other (truthy : bool)           (* JSON for a number, a boolean, an array, an object *)
| EmptyText                            (* the empty string: the one falsy text *)
| Malformed.                           (* any other text: not JSON *)

(** [if (value)] on a text. *)
Definition nonempty (value : StoredItem) : bool :=
  match value with
  | EmptyText => false
  | _ => true
  end.

(** Calls that leave the composable. *)
Inductive Effect :=
| CallOnError (h : Handler) (error : Error)
| ConsoleError (e : Error)
| WindowOpen (url : string)
| AdapterConnect (a : AdapterRef)
| AdapterDisconnect (a : AdapterRef)
| AdapterOnAccountChange (a : AdapterRef)
| AdapterOnNetworkChange (a : AdapterRef)
| AdapterSignAndSubmitTransaction (a : AdapterRef) (transaction : Payload) (option : option Payload)
| AdapterSignTransaction (a : AdapterRef) (transaction : Payload) (option : option Payload)
| AdapterSignMessage (a : AdapterRef) (msgPayload : Payload).

#[global] Instance Effect_eq_dec : EqDecision Effect.
Proof. solve_decision. Defined.

(** An [async] call parked at its [await].  [auto] tells whether the
    promise of [connect()] is held by the auto-connect watcher, which
    catches its rejection, or by an outside caller. *)
Inductive Pending :=
| PConnect (selectedWallet : Wallet.t) (auto : bool)
| PDisconnect.

Module Storage.
(** A [localStorage] object: the texts it holds and, since [setItem] throws
    when the value cannot be stored (quota exceeded, storage disabled),
    which writes it refuses given what it holds. *)
Record t := {
  items : gmap string StoredItem;
  refuses : gmap string StoredItem -> string -> StoredItem -> bool
}.

Definition set_items (m : gmap string StoredItem) (st : t) : t :=
  {| items := m; refuses := refuses st |}.
End Storage.

(** The empty storage that takes every write. *)
#[global] Instance Storage_empty : Empty Storage.t :=
  {| Storage.items := ∅; Storage.refuses := fun _ _ _ => false |}.

(** ** The world *)

Record World := {
  (* the surroundings *)
  heap : AdapterRef -> Adapter.t;
  localStorage : option Storage.t;                  (* [None]: not defined *)
  window : bool;                                    (* [typeof window !== "undefined"] *)
  trace : list Effect;
  next_id : nat;                                    (* next fresh object identity *)
  pending : list Pending;
  (* the refs of one [useWallets()] instance *)
  adapters : list AdapterRef;
  localStorageKey : string;
  autoConnect : bool;
  onError : option Handler;
  walletName : option Selection;
  wallet : option Wallet.t;
  adapter : option AdapterRef;
  account : option AccountKeys;
  connected : bool;
  connecting : bool;
  disconnecting : bool;
  readyState : WalletReadyState;
  walletNetwork : option NetworkInfo;
  wallets : list Wallet.t;
  (* whether the [adapters] watcher has a clean-up function registered *)
  cleanup : bool
}.

(** Assignment to one field; one setter per field that is ever written. *)
Definition set_heap v (w : World) : World :=
  {| heap := v; localStorage := localStorage w; window := window w; trace := trace w;
     next_id := next_id w; pending := pending w; adapters := adapters w;
     localStorageKey := localStorageKey w; autoConnect := autoConnect w;
     onError := onError w; walletName := walletName w; wallet := wallet w;
     adapter := adapter w; account := account w; connected := connected w;
     connecting := connecting w; disconnecting := disconnecting w;
     readyState := readyState w; walletNetwork := walletNetwork w; wallets := wallets w;
     cleanup := cleanup w |}.

Definition set_localStorage v (w : World) : World :=
  {| heap := heap w; localStorage := v; window := window w; trace := trace w;
     next_id := next_id w; pending := pending w; adapters := adapters w;
     localStorageKey := localStorageKey w; autoConnect := autoConnect w;
     onError := onError w; walletName := walletName w; wallet := wallet w;
     adapter := adapter w; account := account w; connected := connected w;
     connecting := connecting w; disconnecting := disconnecting w;
     readyState := readyState w; walletNetwork := walletNetwork w; wallets := wallets w;
     cleanup := cleanup w |}.

Definition set_trace v (w : World) : World :=
  {| heap := heap w; localStorage := localStorage w; window := window w; trace := v;
     next_id := next_id w; pending := pending w; adapters := adapters w;
     localStorageKey := localStorageKey w; autoConnect := autoConnect w;
     onError := onError w; walletName := walletName w; wallet := wallet w;
     adapter := adapter w; account := account w; connected := connected w;
     connecting := connecting w; disconnecting := disconnecting w;
     readyState := readyState w; walletNetwork := walletNetwork w; wallets := wallets w;
     cleanup := cleanup w |}.

Definition set_next_id v (w : World) : World :=
  {| heap := heap w; localStorage := localStorage w; window := window w; trace := trace w;
     next_id := v; pending := pending w; adapters := adapters w;
     localStorageKey := localStorageKey w; autoConnect := autoConnect w;
     onError := onError w; walletName := walletName w; wallet := wallet w;
     adapter := adapter w; account := account w; connected := connected w;
     connecting := connecting w; disconnecting := disconnecting w;
     readyState := readyState w; walletNetwork := walletNetwork w; wallets := wallets w;
     cleanup := cleanup w |}.

Definition set_pending v (w : World) : World :=
  {| heap := heap w; localStorage := localStorage w; window := window w; trace := trace w;
     next_id := next_id w; pending := v; adapters := adapters w;
     localStorageKey := localStorageKey w; autoConnect := autoConnect w;
     onError := onError w; walletName := walletName w; wallet := wallet w;
     adapter := adapter w; account := account w; connected := connected w;
     connecting := connecting w; disconnecting := disconnecting w;
     readyState := readyState w; walletNetwork := walletNetwork w; wallets := wallets w;
     cleanup := cleanup w |}.

Definition set_adapters v (w : World) : World :=
  {| heap := heap w; localStorage := localStorage w; window := window w; trace := trace w;
     next_id := next_id w; pending := pending w; adapters := v;
     localStorageKey := localStorageKey w; autoConnect := autoConnect w;
     onError := onError w; walletName := walletName w; wallet := wallet w;
     adapter := adapter w; account := account w; connected := connected w;
     connecting := connecting w; disconnecting := disconnecting w;
     readyState := readyState w; walletNetwork := walletNetwork w; wallets := wallets w;
     cleanup := cleanup w |}.

Definition set_localStorageKey v (w : World) : World :=
  {| heap := heap w; localStorage := localStorage w; window := window w; trace := trace w;
     next_id := next_id w; pending := pending w; adapters := adapters w;
     localStorageKey := v; autoConnect := autoConnect w; onError := onError w;
     walletName := walletName w; wallet := wallet w; adapter := adapter w;
     account := account w; connected := connected w; connecting := connecting w;
     disconnecting := disconnecting w; readyState := readyState w;
     walletNetwork := walletNetwork w; wallets := wallets w; cleanup := cleanup w |}.

Definition set_autoConnect v (w : World) : World :=
  {| heap := heap w; localStorage := localStorage w; window := window w; trace := trace w;
     next_id := next_id w; pending := pending w; adapters := adapters w;
     localStorageKey := localStorageKey w; autoConnect := v; onError := onError w;
     walletName := walletName w; wallet := wallet w; adapter := adapter w;
     account := account w; connected := connected w; connecting := connecting w;
     disconnecting := disconnecting w; readyState := readyState w;
     walletNetwork := walletNetwork w; wallets := wallets w; cleanup := cleanup w |}.

Definition set_onError v (w : World) : World :=
  {| heap := heap w; localStorage := localStorage w; window := window w; trace := trace w;
     next_id := next_id w; pending := pending w; adapters := adapters w;
     localStorageKey := localStorageKey w; autoConnect := autoConnect w; onError := v;
     walletName := walletName w; wallet := wallet w; adapter := adapter w;
     account := account w; connected := connected w; connecting := connecting w;
     disconnecting := disconnecting w; readyState := readyState w;
     walletNetwork := walletNetwork w; wallets := wallets w; cleanup := cleanup w |}.

Definition set_walletName v (w : World) : World :=
  {| heap := heap w; localStorage := localStorage w; window := window w; trace := trace w;
     next_id := next_id w; pending := pending w; adapters := adapters w;
     localStorageKey := localStorageKey w; autoConnect := autoConnect w;
     onError := onError w; walletName := v; wallet := wallet w; adapter := adapter w;
     account := account w; connected := connected w; connecting := connecting w;
     disconnecting := disconnecting w; readyState := readyState w;
     walletNetwork := walletNetwork w; wallets := wallets w; cleanup := cleanup w |}.

Definition set_wallet v (w : World) : World :=
  {| heap := heap w; localStorage := localStorage w; window := window w; trace := trace w;
     next_id := next_id w; pending := pending w; adapters := adapters w;
     localStorageKey := localStorageKey w; autoConnect := autoConnect w;
     onError := onError w; walletName := walletName w; wallet := v; adapter := adapter w;
     account := account w; connected := connected w; connecting := connecting w;
     disconnecting := disconnecting w; readyState := readyState w;
     walletNetwork := walletNetwork w; wallets := wallets w; cleanup := cleanup w |}.

Definition set_adapter v (w : World) : World :=
  {| heap := heap w; localStorage := localStorage w; window := window w; trace := trace w;
     next_id := next_id w; pending := pending w; adapters := adapters w;
     localStorageKey := localStorageKey w; autoConnect := autoConnect w;
     onError := onError w; walletName := walletName w; wallet := wallet w; adapter := v;
     account := account w; connected := connected w; connecting := connecting w;
     disconnecting := disconnecting w; readyState := readyState w;
     walletNetwork := walletNetwork w; wallets := wallets w; cleanup := cleanup w |}.

Definition set_account v (w : World) : World :=
  {| heap := heap w; localStorage := localStorage w; window := window w; trace := trace w;
     next_id := next_id w; pending := pending w; adapters := adapters w;
     localStorageKey := localStorageKey w; autoConnect := autoConnect w;
     onError := onError w; walletName := walletName w; wallet := wallet w;
     adapter := adapter w; account := v; connected := connected w;
     connecting := connecting w; disconnecting := disconnecting w;
     readyState := readyState w; walletNetwork := walletNetwork w; wallets := wallets w;
     cleanup := cleanup w |}.

Definition set_connected v (w : World) : World :=
  {| heap := heap w; localStorage := localStorage w; window := window w; trace := trace w;
     next_id := next_id w; pending := pending w; adapters := adapters w;
     localStorageKey := localStorageKey w; autoConnect := autoConnect w;
     onError := onError w; walletName := walletName w; wallet := wallet w;
     adapter := adapter w; account := account w; connected := v;
     connecting := connecting w; disconnecting := disconnecting w;
     readyState := readyState w; walletNetwork := walletNetwork w; wallets := wallets w;
     cleanup := cleanup w |}.

Definition set_connecting v (w : World) : World :=
  {| heap := heap w; localStorage := localStorage w; window := window w; trace := trace w;
     next_id := next_id w; pending := pending w; adapters := adapters w;
     localStorageKey := localStorageKey w; autoConnect := autoConnect w;
     onError := onError w; walletName := walletName w; wallet := wallet w;
     adapter := adapter w; account := account w; connected := connected w; connecting := v;
     disconnecting := disconnecting w; readyState := readyState w;
     walletNetwork := walletNetwork w; wallets := wallets w; cleanup := cleanup w |}.

Definition set_disconnecting v (w : World) : World :=
  {| heap := heap w; localStorage := localStorage w; window := window w; trace := trace w;
     next_id := next_id w; pending := pending w; adapters := adapters w;
     localStorageKey := localStorageKey w; autoConnect := autoConnect w;
     onError := onError w; walletName := walletName w; wallet := wallet w;
     adapter := adapter w; account := account w; connected := connected w;
     connecting := connecting w; disconnecting := v; readyState := readyState w;
     walletNetwork := walletNetwork w; wallets := wallets w; cleanup := cleanup w |}.

Definition set_readyState v (w : World) : World :=
  {| heap := heap w; localStorage := localStorage w; window := window w; trace := trace w;
     next_id := next_id w; pending := pending w; adapters := adapters w;
     localStorageKey := localStorageKey w; autoConnect := autoConnect w;
     onError := onError w; walletName := walletName w; wallet := wallet w;
     adapter := adapter w; account := account w; connected := connected w;
     connecting := connecting w; disconnecting := disconnecting w; readyState := v;
     walletNetwork := walletNetwork w; wallets := wallets w; cleanup := cleanup w |}.

Definition set_walletNetwork v (w : World) : World :=
  {| heap := heap w; localStorage := localStorage w; window := window w; trace := trace w;
     next_id := next_id w; pending := pending w; adapters := adapters w;
     localStorageKey := localStorageKey w; autoConnect := autoConnect w;
     onError := onError w; walletName := walletName w; wallet := wallet w;
     adapter := adapter w; account := account w; connected := connected w;
     connecting := connecting w; disconnecting := disconnecting w;
     readyState := readyState w; walletNetwork := v; wallets := wallets w;
     cleanup := cleanup w |}.

Definition set_wallets v (w : World) : World :=
  {| heap := heap w; localStorage := localStorage w; window := window w; trace := trace w;
     next_id := next_id w; pending := pending w; adapters := adapters w;
     localStorageKey := localStorageKey w; autoConnect := autoConnect w;
     onError := onError w; walletName := walletName w; wallet := wallet w;
     adapter := adapter w; account := account w; connected := connected w;
     connecting := connecting w; disconnecting := disconnecting w;
     readyState := readyState w; walletNetwork := walletNetwork w; wallets := v;
     cleanup := cleanup w |}.

Definition set_cleanup v (w : World) : World :=
  {| heap := heap w; localStorage := localStorage w; window := window w; trace := trace w;
     next_id := next_id w; pending := pending w; adapters := adapters w;
     localStorageKey := localStorageKey w; autoConnect := autoConnect w;
     onError := onError w; walletName := walletName w; wallet := wallet w;
     adapter := adapter w; account := account w; connected := connected w;
     connecting := connecting w; disconnecting := disconnecting w;
     readyState := readyState w; walletNetwork := walletNetwork w; wallets := wallets w;
     cleanup := v |}.

(** ** Control flow: state, exceptions, [try]/[catch]/[finally] *)

Inductive Result (A : Type) :=
| Normal (a : A)
| Thrown (e : Error).
Arguments Normal {A} a.
Arguments Thrown {A} e.

Definition Js (A : Type) : Type := World -> Result A * World.

Definition ret {A} (a : A) : Js A := fun w => (Normal a, w).

Definition bind {A B} (m : Js A) (k : A -> Js B) : Js B :=
  fun w => match m w with
           | (Normal a, w') => k a w'
           | (Thrown e, w') => (Thrown e, w')
           end.

Definition throw {A} (e : Error) : Js A := fun w => (Thrown e, w).

Definition gets {A} (f : World -> A) : Js A := fun w => (Normal (f w), w).

Definition modify (f : World -> World) : Js unit := fun w => (Normal tt, f w).

Definition try_catch {A} (body : Js A) (handler : Error -> Js A) : Js A :=
  fun w => match body w with
           | (Normal a, w') => (Normal a, w')
           | (Thrown e, w') => handler e w'
           end.

(** The [finally] block runs on both exits; the completion of the [try]
    statement is kept unless the block itself throws. *)
Definition try_finally {A} (body : Js A) (fin : Js unit) : Js A :=
  fun w => match body w with
           | (r, w') => match fin w' with
                        | (Normal _, w'') => (r, w'')
                        | (Thrown e, w'') => (Thrown e, w'')
                        end
           end.

Declare Scope js_scope.
Delimit Scope js_scope with js.
Notation "x <- m ;; k" := (bind m (fun x => k))
  (at level 100, m at next level, k at level 200, right associativity) : js_scope.
Notation "m ;; k" := (bind m (fun _ => k))
  (at level 100, k at level 200, right associativity) : js_scope.
Local Open Scope js_scope.

Fixpoint for_of {A} (l : list A) (body : A -> Js unit) : Js unit :=
  match l with
  | [] => ret tt
  | x :: l' => body x ;; for_of l' body
  end.

Fixpoint map_js {A B} (f : A -> Js B) (l : list A) : Js (list B) :=
  match l with
  | [] => ret []
  | x :: l' => y <- f x ;; ys <- map_js f l' ;; ret (y :: ys)
  end.

(** A fresh object identity. *)
Definition fresh : Js nat :=
  fun w => (Normal (next_id w), set_next_id (S (next_id w)) w).

Definition emit_effect (e : Effect) : Js unit :=
  modify (fun w => set_trace (trace w ++ [e]) w).

(** How an [async] call looks to its caller right after the call. *)
Inductive Promise (A : Type) :=
| Fulfilled (a : A)
| Rejected (e : Error)
| Awaiting.
Arguments Fulfilled {A} a.
Arguments Rejected {A} e.
Arguments Awaiting {A}.

(** ** The surroundings: storage, console, the adapters' emitter *)

(** [if (s)] on a string: the empty string is falsy. *)
Definition truthy (s : string) : bool := negb (String.eqb s "").

(** [localStorage] is there or it is not (no browser); naming it when it
    is not throws.  [setItem] throws when the storage refuses the value and
    then stores nothing. *)
Definition localStorage_getItem (key : string) : Js (option StoredItem) :=
  fun w => match localStorage w with
           | None => (Thrown ReferenceError, w)
           | Some st => (Normal (Storage.items st !! key), w)
           end.

Definition localStorage_setItem (key : string) (value : StoredItem) : Js unit :=
  fun w => match localStorage w with
           | None => (Thrown ReferenceError, w)
           | Some st =>
               if Storage.refuses st (Storage.items st) key value
               then (Thrown QuotaExceededError, w)
               else (Normal tt,
                     set_localStorage
                       (Some (Storage.set_items (<[key := value]> (Storage.items st)) st)) w)
           end.

Definition localStorage_removeItem (key : string) : Js unit :=
  fun w => match localStorage w with
           | None => (Thrown ReferenceError, w)
           | Some st =>
               (Normal tt,
                set_localStorage
                  (Some (Storage.set_items (delete key (Storage.items st)) st)) w)
           end.

(** [JSON.parse] gives back the name that [JSON.stringify] wrote, another
    JSON value for its JSON, and throws on every other text. *)
Definition JSON_parse (text : StoredItem) : Js (option Selection) :=
  match text with
  | JSON_stringify name => ret (Some (Name name))
  | JSON_null => ret None
  | JSON_other truthy => ret (Some (NotAName truthy))
  | EmptyText | Malformed => throw SyntaxError
  end.

Definition console_error (e : Error) : Js unit := emit_effect (ConsoleError e).

(** The item persisted under the instance's key, if any. *)
Definition persisted (w : World) : option StoredItem :=
  st ← localStorage w; Storage.items st !! localStorageKey w.

(** The emitter every adapter extends.  [on] appends a listener; a listener
    registered without a context gets the emitter itself as context.  [off]
    drops the listeners of the event that were registered with this very
    function object and, when a context is passed, with this context. *)
Definition listener_matches (event : EventName) (fn : Fn)
    (context : option AdapterRef) (l : Listener) : Prop :=
  l_event l = event /\ l_fn l = fn /\
  match context with None => True | Some c => l_context l = c end.

#[global] Instance listener_matches_dec event fn context l :
  Decision (listener_matches event fn context l).
Proof. unfold listener_matches. destruct context; apply _. Defined.

Definition update_adapter (a : AdapterRef) (f : Adapter.t -> Adapter.t) (w : World) : World :=
  set_heap (<[a := f (heap w a)]> (heap w)) w.

Definition on (a : AdapterRef) (event : EventName) (fn : Fn)
    (context : option AdapterRef) : Js unit :=
  modify (update_adapter a (fun o =>
    Adapter.set_listeners
      (Adapter.listeners o ++
         [{| l_event := event; l_fn := fn; l_context := default a context |}]) o)).

Definition off (a : AdapterRef) (event : EventName) (fn : Fn)
    (context : option AdapterRef) : Js unit :=
  modify (update_adapter a (fun o =>
    Adapter.set_listeners
      (filter (fun l => ~ listener_matches event fn context l) (Adapter.listeners o)) o)).

(** ** The composable, function by function *)

(** Lines 27-37. *)
Definition getWalletNameFromLocalStorage (key : string) : Js (option Selection) :=
  try_catch
    (value <- localStorage_getItem key ;;
     match value with
     | Some value => if nonempty value then JSON_parse value else ret None
     | None => ret None
     end)
    (fun e =>
       win <- gets window ;;
       (if win then console_error e else ret tt) ;;
       ret None).

(** The argument object of [init]; a missing property is [None]. *)
Record UseWalletsProvider := {
  p_wallets : option (list AdapterRef);
  p_onError : option Handler;
  p_localStorageKey : option string;
  p_autoConnect : option bool
}.

(** Lines 45-55.  The last statement is
    [if (onError.value) onError.value = onHandleError]. *)
Definition init (p : UseWalletsProvider) : Js unit :=
  modify (set_adapters (default [] (p_wallets p))) ;;
  match p_localStorageKey p with
  | Some lsKey => if truthy lsKey then modify (set_localStorageKey lsKey) else ret tt
  | None => ret tt
  end ;;
  match p_autoConnect p with
  | Some autoConnection => modify (set_autoConnect autoConnection)
  | None => ret tt
  end ;;
  stored <- gets onError ;;
  match stored with
  | Some _ => modify (set_onError (p_onError p))
  | None => ret tt
  end.

(** Lines 57-63. *)
Definition setDefaultState : Js unit :=
  modify (set_wallet None) ;;
  modify (set_adapter None) ;;
  modify (set_account None) ;;
  modify (set_connected false) ;;
  modify (set_walletNetwork None).

(** [findIndex]: [None] stands for -1. *)
Definition findIndex {A} (P : A -> Prop) `{forall x, Decision (P x)} (l : list A) : option nat :=
  fst <$> list_find P l.

Definition same_name (w : World) (current : AdapterRef) (prevWallet : Wallet.t) : Prop :=
  Adapter.name (heap w (Wallet.adapter prevWallet)) = Adapter.name (heap w current).

#[global] Instance same_name_dec w current prevWallet :
  Decision (same_name w current prevWallet).
Proof. unfold same_name. apply _. Defined.

(** Lines 78-93, the function declared inside the [adapters] watcher. *)
Definition handleReadyStateChange (current : AdapterRef) (isReadyState : WalletReadyState)
    : Js unit :=
  index <- gets (fun w => findIndex (same_name w current) (wallets w)) ;;
  match index with
  | None => ret tt
  | Some index =>
      currentWallet <- gets (fun w => wallets w !! index) ;;
      match currentWallet with
      | None => ret tt
      | Some currentWallet =>
          i <- fresh ;;
          modify (fun w =>
            set_wallets
              (take index (wallets w) ++
               [{| Wallet.id := i; Wallet.adapter := Wallet.adapter currentWallet;
                   Wallet.readyState := isReadyState |}] ++
               drop (S index) (wallets w)) w)
      end
  end.

(** [(isReady) => handleReadyStateChange(wAdapter, isReady)], evaluated. *)
Definition readyStateArrow (wAdapter : AdapterRef) : Js Fn :=
  fid <- fresh ;; ret (ReadyStateArrow fid wAdapter).

(** The body of [watch(adapters, ...)], lines 94-104, and the registration
    of its clean-up. *)
Definition watch_adapters_callback : Js unit :=
  ads <- gets adapters ;;
  ws <- map_js (fun adpt =>
          i <- fresh ;;
          r <- gets (fun w => Adapter.readyState (heap w adpt)) ;;
          ret {| Wallet.id := i; Wallet.adapter := adpt; Wallet.readyState := r |}) ads ;;
  modify (set_wallets ws) ;;
  ads <- gets adapters ;;
  for_of ads (fun wAdapter =>
    fn <- readyStateArrow wAdapter ;;
    on wAdapter readyStateChange fn (Some wAdapter)) ;;
  modify (set_cleanup true).

(** The function handed to [onCleanup], lines 106-115.  It reads
    [adapters.value] when it runs, and evaluates the arrow function anew. *)
Definition watch_adapters_cleanup : Js unit :=
  ads <- gets adapters ;;
  for_of ads (fun wAdapter =>
    fn <- readyStateArrow wAdapter ;;
    off wAdapter readyStateChange fn (Some wAdapter)).

(** One run of the watcher after [adapters] changed: the clean-up of the
    previous run first, then the body. *)
Definition watch_adapters : Js unit :=
  registered <- gets cleanup ;;
  (if registered then watch_adapters_cleanup else ret tt) ;;
  watch_adapters_callback.

(** Lines 117-124. *)
Definition handleAddressChange : Js unit :=
  a <- gets adapter ;;
  match a with
  | None => ret tt
  | Some a => modify (fun w => set_account (Adapter.publicAccount (heap w a)) w)
  end.

Definition handleNetworkChange : Js unit :=
  a <- gets adapter ;;
  match a with
  | None => ret tt
  | Some a => modify (fun w => set_walletNetwork (Adapter.network (heap w a)) w)
  end.

(** Lines 126-140; exported as [select]. *)
Definition setWalletName (name : option WalletName) : Js unit :=
  try_catch
    (key <- gets localStorageKey ;;
     match name with
     | None =>
         localStorage_removeItem key ;;
         modify (set_walletName None)
     | Some name =>
         localStorage_setItem key (JSON_stringify name) ;;
         modify (set_walletName (Some (Name name)))
     end)
    (fun e =>
       win <- gets window ;;
       if win then console_error e else ret tt).

(** Lines 142-150. *)
Definition handleAfterConnect : Js unit :=
  a <- gets adapter ;;
  match a with
  | None => ret tt
  | Some a =>
      on a accountChange handleAddressChangeFn None ;;
      on a networkChange handleNetworkChangeFn None ;;
      on a disconnectEvent handleDisconnectFn None ;;
      on a errorEvent handleErrorFn None ;;
      emit_effect (AdapterOnAccountChange a) ;;
      emit_effect (AdapterOnNetworkChange a)
  end.

(** Lines 153-161. *)
Definition handleDisconnect : Js unit :=
  setWalletName None ;;
  a <- gets adapter ;;
  match a with
  | None => ret tt
  | Some a =>
      off a accountChange handleAddressChangeFn None ;;
      off a networkChange handleNetworkChangeFn None ;;
      off a disconnectEvent handleDisconnectFn None ;;
      off a errorEvent handleErrorFn None ;;
      setDefaultState
  end.

(** Lines 164-167. *)
Definition handleError (error : Error) : Js Error :=
  h <- gets onError ;;
  match h with
  | Some h => emit_effect (CallOnError h error)
  | None => ret tt
  end ;;
  ret error.

(** *** [connect] *)

Definition is_selected (w : World) (wAdapter : Wallet.t) : Prop :=
  walletName w = Some (Name (Adapter.name (heap w (Wallet.adapter wAdapter)))).

#[global] Instance is_selected_dec w wAdapter : Decision (is_selected w wAdapter).
Proof. unfold is_selected. apply _. Defined.

(** [Array.prototype.find]: the first element satisfying the predicate. *)
Definition find {A} (P : A -> Prop) `{forall x, Decision (P x)} (l : list A) : option A :=
  snd <$> list_find P l.

Definition installable (r : WalletReadyState) : bool :=
  bool_decide (r = Installed) || bool_decide (r = Loadable).

(** The part of [connect] (lines 169-216) up to its [await].  [None]: the
    function returned; [Some selectedWallet]: [selectedWallet.adapter.connect()]
    has been called and the function waits for it.  The [else] branch with
    [setDefaultState] is in the source; the [throw] before it leaves it
    without a way in. *)
Definition connect_before_await : Js (option Wallet.t) :=
  busy <- gets (fun w => connecting w || disconnecting w || connected w) ;;
  if busy : bool then ret None else
  (selectedWallet <- gets (fun w => find (is_selected w) (wallets w)) ;;
   match selectedWallet with
   | None => (error <- handleError WalletNotSelectedError ;; throw error)
   | Some _ => ret tt
   end ;;
   match selectedWallet with
   | None => (setDefaultState ;; ret None)
   | Some selectedWallet =>
       let a := Wallet.adapter selectedWallet in
       modify (set_wallet (Some selectedWallet)) ;;
       modify (set_adapter (Some a)) ;;
       modify (fun w => set_connected (Adapter.connected (heap w a)) w) ;;
       modify (fun w => set_account (Adapter.publicAccount (heap w a)) w) ;;
       modify (fun w => set_walletNetwork (Adapter.network (heap w a)) w) ;;
       r <- gets (fun w => Adapter.readyState (heap w a)) ;;
       if negb (installable r) then
         (setWalletName None ;;
          win <- gets window ;;
          u <- gets (fun w => Adapter.url (heap w a)) ;;
          (if win && truthy u then emit_effect (WindowOpen u) else ret tt) ;;
          error <- handleError WalletNotReadyError ;;
          throw error)
       else
         (modify (set_connecting true) ;;
          emit_effect (AdapterConnect a) ;;
          ret (Some selectedWallet))
   end).

(** The part of [connect] after its [await]: [settled] is [None] when the
    adapter's promise resolved and [Some error] when it rejected. *)
Definition connect_after_await (settled : option Error) : Js unit :=
  try_finally
    (try_catch
       (match settled with
        | Some error => throw error
        | None => handleAfterConnect
        end)
       (fun error => setWalletName None ;; throw error))
    (modify (set_connecting false)).

Definition park (k : Pending) (w : World) : World :=
  set_pending (pending w ++ [k]) w.

(** A call of [connect()]; [auto] is [true] for the call made by the
    auto-connect watcher. *)
Definition connect_from (auto : bool) (w : World) : Promise unit * World :=
  match connect_before_await w with
  | (Thrown error, w') => (Rejected error, w')
  | (Normal None, w') => (Fulfilled tt, w')
  | (Normal (Some selectedWallet), w') => (Awaiting, park (PConnect selectedWallet auto) w')
  end.

Definition connect : World -> Promise unit * World := connect_from false.

(** *** [disconnect] *)

(** Lines 218-237, up to the [await]. *)
Definition disconnect_before_await : Js (option AdapterRef) :=
  busy <- gets disconnecting ;;
  if busy : bool then ret None else
  (a <- gets adapter ;;
   match a with
   | None => (setWalletName None ;; ret None)
   | Some a =>
       modify (set_disconnecting true) ;;
       emit_effect (AdapterDisconnect a) ;;
       ret (Some a)
   end).

(** The [catch] and [finally] blocks of [disconnect]. *)
Definition disconnect_after_await (settled : option Error) : Js unit :=
  try_finally
    (try_catch
       (match settled with
        | Some error => throw error
        | None => ret tt
        end)
       (fun error => setWalletName None ;; throw error))
    (modify (set_disconnecting false) ;; handleDisconnect).

Definition disconnect (w : World) : Promise unit * World :=
  match disconnect_before_await w with
  | (Thrown error, w') => (Rejected error, w')
  | (Normal None, w') => (Fulfilled tt, w')
  | (Normal (Some _), w') => (Awaiting, park PDisconnect w')
  end.

(** *** The remaining watchers *)

(** Lines 239-245. *)
Definition watch_readyState : Js unit :=
  ws <- gets wallets ;;
  for_of ws (fun item =>
    same <- gets (fun w => bool_decide (is_selected w item)) ;;
    if same : bool
    then modify (fun w => set_readyState (Adapter.readyState (heap w (Wallet.adapter item))) w)
    else ret tt).

(** Lines 247-249. *)
Definition watch_storage : Js unit :=
  key <- gets localStorageKey ;;
  name <- getWalletNameFromLocalStorage key ;;
  modify (set_walletName name).

(** [!walletName.value]: [null], the empty name and a falsy value are
    falsy. *)
Definition no_name (name : option Selection) : bool :=
  match name with
  | None => true
  | Some (Name name) => negb (truthy name)
  | Some (NotAName truthy) => negb truthy
  end.

(** Lines 252-272: the watcher calls [connect()] and hands a rejection to
    [handleError]. *)
Definition watch_autoConnect (w : World) : World :=
  if connecting w || connected w || no_name (walletName w) || negb (autoConnect w)
     || bool_decide (readyState w = Unsupported)
  then w
  else match connect_from true w with
       | (Rejected error, w') => snd (handleError error w')
       | (_, w') => w'
       end.

(** *** The transaction facade (lines 273-303) *)

Definition signAndSubmitTransaction_before_await (transaction : Payload)
    (option : option Payload) : Js AdapterRef :=
  a <- gets adapter ;;
  match a with
  | None => (error <- handleError WalletNotSelectedError ;; throw error)
  | Some a =>
      c <- gets connected ;;
      if negb c then (error <- handleError WalletNotConnectedError ;; throw error)
      else (emit_effect (AdapterSignAndSubmitTransaction a transaction option) ;; ret a)
  end.

Definition signTransaction_before_await (transaction : Payload)
    (option : option Payload) : Js AdapterRef :=
  a <- gets adapter ;;
  match a with
  | None => (error <- handleError WalletNotSelectedError ;; throw error)
  | Some a =>
      c <- gets connected ;;
      if negb c then (error <- handleError WalletNotConnectedError ;; throw error)
      else (emit_effect (AdapterSignTransaction a transaction option) ;; ret a)
  end.

Definition signMessage_before_await (msgPayload : Payload) : Js AdapterRef :=
  a <- gets adapter ;;
  match a with
  | None => (error <- handleError WalletNotSelectedError ;; throw error)
  | Some a =>
      c <- gets connected ;;
      if negb c then (error <- handleError WalletNotConnectedError ;; throw error)
      else (emit_effect (AdapterSignMessage a msgPayload) ;; ret a)
  end.

(** [const response = await ...; return response;]: what the adapter's
    promise settles with is what the caller's promise settles with. *)
Definition sign_after_await (settled : Result Response) : Result Response :=
  match settled with
  | Normal response => Normal response
  | Thrown error => Thrown error
  end.

Definition awaiting_adapter {A} (r : Result AdapterRef * World) : Promise A * World :=
  match r with
  | (Thrown error, w') => (Rejected error, w')
  | (Normal _, w') => (Awaiting, w')
  end.

Definition signAndSubmitTransaction (transaction : Payload) (option : option Payload)
    (w : World) : Promise Response * World :=
  awaiting_adapter (signAndSubmitTransaction_before_await transaction option w).

Definition signTransaction (transaction : Payload) (option : option Payload)
    (w : World) : Promise Response * World :=
  awaiting_adapter (signTransaction_before_await transaction option w).

Definition signMessage (msgPayload : Payload) (w : World) : Promise Response * World :=
  awaiting_adapter (signMessage_before_await msgPayload w).

(** ** What can happen to an instance

    JavaScript runs each piece of code to completion, so an execution is a
    sequence of events: a call of the composable from outside, the settling
    of a promise a parked call waits for, an adapter emitting an event or
    changing its own status, and a run of one of the four watchers.  Vue
    runs a watcher after one of its sources changed; here a watcher may run
    at any time, which only adds executions.  What holds in every world
    reachable by these events holds in every execution of the code. *)

(** What an adapter emits; the payload is what the listener is called with. *)
Inductive Emission :=
| EmitReadyStateChange (isReady : WalletReadyState)
| EmitAccountChange
| EmitNetworkChange
| EmitDisconnect
| EmitError (error : Error).

Definition event_of (e : Emission) : EventName :=
  match e with
  | EmitReadyStateChange _ => readyStateChange
  | EmitAccountChange => accountChange
  | EmitNetworkChange => networkChange
  | EmitDisconnect => disconnectEvent
  | EmitError _ => errorEvent
  end.

Definition call_listener (fn : Fn) (e : Emission) : Js unit :=
  match fn, e with
  | ReadyStateArrow _ wAdapter, EmitReadyStateChange isReady =>
      handleReadyStateChange wAdapter isReady
  | handleAddressChangeFn, _ => handleAddressChange
  | handleNetworkChangeFn, _ => handleNetworkChange
  | handleDisconnectFn, _ => handleDisconnect
  | handleErrorFn, EmitError error => (_ <- handleError error ;; ret tt)
  | _, _ => ret tt
  end.

(** The emitter calls the listeners that were registered for the event
    when the emission started, in the order of registration. *)
Definition emit (a : AdapterRef) (e : Emission) : Js unit :=
  ls <- gets (fun w => filter (fun l => l_event l = event_of e) (Adapter.listeners (heap w a))) ;;
  for_of ls (fun l => call_listener (l_fn l) e).

(** The promise a parked call waits for settles. *)
Definition settle (i : nat) (settled : option Error) (w : World) : World :=
  match pending w !! i with
  | None => w
  | Some k =>
      let w := set_pending (delete i (pending w)) w in
      match k with
      | PConnect _ auto =>
          match connect_after_await settled w with
          | (Thrown error, w') => if auto then snd (handleError error w') else w'
          | (Normal _, w') => w'
          end
      | PDisconnect => snd (disconnect_after_await settled w)
      end
  end.

Inductive Event :=
| CallInit (p : UseWalletsProvider)
| CallSelect (name : option WalletName)
| CallConnect
| CallDisconnect
| CallSignAndSubmitTransaction (transaction : Payload) (option : option Payload)
| CallSignTransaction (transaction : Payload) (option : option Payload)
| CallSignMessage (msgPayload : Payload)
| Settles (i : nat) (settled : option Error)
| AdapterEmits (a : AdapterRef) (e : Emission)
| AdapterChanges (a : AdapterRef) (r : WalletReadyState) (c : bool)
    (acc : option AccountKeys) (net : option NetworkInfo)
| RunWatchAdapters
| RunWatchReadyState
| RunWatchStorage
| RunWatchAutoConnect.

(** The promise returned to an outside caller is not kept in the world: the
    claims about what a caller sees are stated on the functions themselves. *)
Definition step (w : World) (ev : Event) : World :=
  match ev with
  | CallInit p => snd (init p w)
  | CallSelect name => snd (setWalletName name w)
  | CallConnect => snd (connect w)
  | CallDisconnect => snd (disconnect w)
  | CallSignAndSubmitTransaction transaction option =>
      snd (signAndSubmitTransaction transaction option w)
  | CallSignTransaction transaction option => snd (signTransaction transaction option w)
  | CallSignMessage msgPayload => snd (signMessage msgPayload w)
  | Settles i settled => settle i settled w
  | AdapterEmits a e => snd (emit a e w)
  | AdapterChanges a r c acc net => update_adapter a (Adapter.set_status r c acc net) w
  | RunWatchAdapters => snd (watch_adapters w)
  | RunWatchReadyState => snd (watch_readyState w)
  | RunWatchStorage => snd (watch_storage w)
  | RunWatchAutoConnect => watch_autoConnect w
  end.

Definition run (evs : list Event) (w : World) : World := fold_left step evs w.

(** A fresh [useWallets()] instance in given surroundings. *)
Definition fresh_instance (h : AdapterRef -> Adapter.t)
    (storage : option Storage.t) (win : bool) : World :=
  {| heap := h; localStorage := storage; window := win; trace := []; next_id := 0;
     pending := []; adapters := []; localStorageKey := "walletName";
     autoConnect := false; onError := None; walletName := None; wallet := None;
     adapter := None; account := None; connected := false; connecting := false;
     disconnecting := false; readyState := Unsupported; walletNetwork := None;
     wallets := []; cleanup := false |}.

(** The worlds an instance can get into, whatever its surroundings. *)
Definition reachable (w : World) : Prop :=
  exists h storage win evs, w = run evs (fresh_instance h storage win).

(** The idle session: every field null or false. *)
Definition idle (w : World) : Prop :=
  wallet w = None /\ adapter w = None /\ account w = None /\ walletNetwork w = None /\
  connected w = false /\ connecting w = false /\ disconnecting w = false.

(** ** Sample surroundings for the worked examples *)

Definition sample_adapter (n : WalletName) (r : WalletReadyState) (c : bool) : Adapter.t :=
  {| Adapter.name := n; Adapter.url := "https://wallet.example"; Adapter.readyState := r;
     Adapter.connected := c; Adapter.publicAccount := Some 7; Adapter.network := Some 1;
     Adapter.listeners := [] |}.

(** Adapter 0 is "A" and installed, adapter 1 is "B" and not detected,
    adapter 2 is "C", installed and already connected. *)
Definition sample_heap : AdapterRef -> Adapter.t :=
  fun a => match a with
           | 0 => sample_adapter "A" Installed false
           | 1 => sample_adapter "B" NotDetected false
           | _ => sample_adapter "C" Installed true
           end.

Definition sample : World := fresh_instance sample_heap (Some ∅) true.

Definition with_wallets (l : list AdapterRef) : UseWalletsProvider :=
  {| p_wallets := Some l; p_onError := None; p_localStorageKey := None;
     p_autoConnect := None |}.

(** ** The module-global variant (VueWalletProviders/useVueWalletProvider.ts)

    Here [adapters], [onError], [connecting] and the computed [wallets] are
    module-level: one copy for all callers of [useWallets()].  [connect]
    takes the wallet name as argument and its guard line is commented out. *)
Module Singleton.

Record Wallet := { adapter : AdapterRef; readyState : WalletReadyState }.

(** What [connect] returns once the adapter has connected. *)
Record Connection := {
  provider : AdapterRef;
  network : option NetworkInfo;
  connector : WalletName;
  connectedAccount : option AccountKeys
}.

Record World := {
  heap : AdapterRef -> Adapter.t;
  window : bool;
  trace : list Effect;
  adapters : list AdapterRef;
  onError : option Handler;
  connecting : bool;
  (* the readiness every adapter showed when the computed [wallets] was
     evaluated; [None]: not evaluated yet *)
  first_seen : option (AdapterRef -> WalletReadyState)
}.

Definition set_trace (v : list Effect) (w : World) : World :=
  {| heap := heap w; window := window w; trace := v; adapters := adapters w;
     onError := onError w; connecting := connecting w; first_seen := first_seen w |}.

Definition set_connecting (v : bool) (w : World) : World :=
  {| heap := heap w; window := window w; trace := trace w; adapters := adapters w;
     onError := onError w; connecting := v; first_seen := first_seen w |}.

Definition set_first_seen (v : option (AdapterRef -> WalletReadyState)) (w : World) : World :=
  {| heap := heap w; window := window w; trace := trace w; adapters := adapters w;
     onError := onError w; connecting := connecting w; first_seen := v |}.

(** The twelve adapter instances created when the module is loaded, in
    the order of the array literal. *)
Definition walletAdapters : list AdapterRef := seq 0 12.

Definition loaded (h : AdapterRef -> Adapter.t) (win : bool) : World :=
  {| heap := h; window := win; trace := []; adapters := walletAdapters;
     onError := None; connecting := false; first_seen := None |}.

(** The computed [wallets].  What it reads is never assigned, so it is
    evaluated when it is first read and its value is kept: the [readyState]
    of an entry is the one its adapter showed at that first evaluation. *)
Definition wallets (w : World) : list Wallet :=
  map (fun adpt =>
         {| adapter := adpt;
            readyState := match first_seen w with
                          | Some seen => seen adpt
                          | None => Adapter.readyState (heap w adpt)
                          end |})
      (adapters w).

(** Reading [wallets.value]. *)
Definition read_wallets (w : World) : World :=
  match first_seen w with
  | Some _ => w
  | None => set_first_seen (Some (fun adpt => Adapter.readyState (heap w adpt))) w
  end.

Definition handleError (error : Error) (w : World) : Error * World :=
  match onError w with
  | Some h => (error, set_trace (trace w ++ [CallOnError h error]) w)
  | None => (error, w)
  end.

Definition named (w : World) (toConnectWalletName : string) (wAdapter : Wallet) : Prop :=
  Adapter.name (heap w (adapter wAdapter)) = toConnectWalletName.

#[global] Instance named_dec w n wAdapter : Decision (named w n wAdapter).
Proof. unfold named. apply _. Defined.

(** [connect] (lines 79-120) up to its [await].  The guard of line 80 is a
    comment in the source; the [if (!selectedWallet) return] after the
    [throw] cannot be entered. *)
Definition connect (toConnectWalletName : string) (w : World)
    : Promise Connection * World :=
  let w := read_wallets w in
  match find (named w toConnectWalletName) (wallets w) with
  | None =>
      let '(error, w) := handleError WalletNotSelectedError w in
      (Rejected error, w)
  | Some selectedWallet =>
      let a := adapter selectedWallet in
      if negb (installable (Adapter.readyState (heap w a))) then
        let w := if window w && truthy (Adapter.url (heap w a))
                 then set_trace (trace w ++ [WindowOpen (Adapter.url (heap w a))]) w
                 else w in
        let '(error, w) := handleError WalletNotReadyError w in
        (Rejected error, w)
      else
        let w := set_connecting true w in
        (Awaiting, set_trace (trace w ++ [AdapterConnect a]) w)
  end.

(** [connect] after its [await], for the wallet it had selected. *)
Definition connect_after_await (selectedWallet : Wallet) (settled : option Error)
    (w : World) : Result Connection * World :=
  let a := adapter selectedWallet in
  let r := match settled with
           | Some error => Thrown error
           | None =>
               Normal {| provider := a;
                         network := Adapter.network (heap w a);
                         connector := Adapter.name (heap w a);
                         connectedAccount := Adapter.publicAccount (heap w a) |}
           end in
  (r, set_connecting false w).

End Singleton.

(** The calls of an adapter's [connect] operation recorded in a trace. *)
Definition is_adapter_connect (e : Effect) : bool :=
  match e with
  | AdapterConnect _ => true
  | _ => false
  end.

Definition adapter_connect_calls (t : list Effect) : nat :=
  length (List.filter is_adapter_connect t).

(** * Vocabulary of the claims *)

(** ** Invariants of the session *)

(** Without an active adapter the session holds nothing else either. *)
Definition session_wf (w : World) : Prop :=
  adapter w = None ->
  wallet w = None /\ account w = None /\ walletNetwork w = None /\ connected w = false.

(** The invocations of an [onError] callback recorded in a trace. *)
Definition handler_calls (t : list Effect) : list (Handler * Error) :=
  omap (fun e => match e with CallOnError h error => Some (h, error) | _ => None end) t.

Definition no_handler (w : World) : Prop :=
  onError w = None /\ handler_calls (trace w) = [].

(** ** Listeners of the session *)

(** The four listeners [handleAfterConnect] attaches. *)
Definition bridge_listener (l : Listener) : Prop :=
  (l_event l = accountChange /\ l_fn l = handleAddressChangeFn) \/
  (l_event l = networkChange /\ l_fn l = handleNetworkChangeFn) \/
  (l_event l = disconnectEvent /\ l_fn l = handleDisconnectFn) \/
  (l_event l = errorEvent /\ l_fn l = handleErrorFn).

Definition detached (o : Adapter.t) : Prop :=
  forall l, l ∈ Adapter.listeners o -> ~ bridge_listener l.

(** What a function leaves alone when it only touches the storage, the
    selected name and the trace. *)
Definition same_session (w w' : World) : Prop :=
  heap w' = heap w /\ wallet w' = wallet w /\ adapter w' = adapter w /\
  account w' = account w /\ walletNetwork w' = walletNetwork w /\
  connected w' = connected w /\ connecting w' = connecting w /\
  disconnecting w' = disconnecting w /\ pending w' = pending w.

(** Every arrow function registered as a listener was created before the
    next fresh identity. *)
Definition arrows_allocated (w : World) : Prop :=
  forall a l fid wAdapter,
    l ∈ Adapter.listeners (heap w a) -> l_fn l = ReadyStateArrow fid wAdapter ->
    fid < next_id w.

(** The listeners in [L] are still registered. *)
Definition still_listening (L : AdapterRef -> list Listener) (w : World) : Prop :=
  forall a l, l ∈ L a -> l ∈ Adapter.listeners (heap w a).

(** ** Parked calls *)

Definition is_connect (k : Pending) : bool :=
  match k with PConnect _ _ => true | PDisconnect => false end.

Definition is_disconnect (k : Pending) : bool :=
  match k with PConnect _ _ => false | PDisconnect => true end.

Definition parked_connects (w : World) : nat := length (List.filter is_connect (pending w)).

Definition parked_disconnects (w : World) : nat :=
  length (List.filter is_disconnect (pending w)).

Definition flags_count_parked (w : World) : Prop :=
  parked_connects w = Nat.b2n (connecting w) /\
  parked_disconnects w = Nat.b2n (disconnecting w).

(** The two flags and the parked calls are as given. *)
Definition flags (c d : bool) (p : list Pending) (w : World) : Prop :=
  connecting w = c /\ disconnecting w = d /\ pending w = p.

(** ** Object identities of the wallet entries *)

(** Every entry of [wallets] was allocated before the next fresh identity. *)
Definition ids_fresh (w : World) : Prop :=
  Forall (fun x => Wallet.id x < next_id w) (wallets w).

(** ** Worked sessions in the sample surroundings *)

Definition init_with_handler (handler : Handler) : UseWalletsProvider :=
  {| p_wallets := Some [0; 1]; p_onError := Some handler; p_localStorageKey := None;
     p_autoConnect := None |}.

(** The registry holds "A" and "B". *)
Definition two_wallets : World := run [CallInit (with_wallets [0; 1]); RunWatchAdapters] sample.

Definition selected_A : World :=
  run [CallInit (with_wallets [0; 1]); RunWatchAdapters; CallSelect (Some "A")] sample.

Definition selected_B : World :=
  run [CallInit (with_wallets [0; 1]); RunWatchAdapters; CallSelect (Some "B")] sample.

Definition selected_Z : World :=
  run [CallInit (with_wallets [0; 1]); RunWatchAdapters; CallSelect (Some "Z")] sample.

(** The first call of [connect()] on the installed wallet "A" is parked. *)
Definition connecting_to_A : World :=
  run [CallInit (with_wallets [0; 1]); RunWatchAdapters; CallSelect (Some "A"); CallConnect]
      sample.

(** A session on the already connected wallet "C". *)
Definition connected_to_C : World :=
  run [CallInit (with_wallets [2]); RunWatchAdapters; CallSelect (Some "C"); CallConnect]
      sample.

(** Connected to "C" with the listeners attached, and [disconnect()] parked
    at the adapter. *)
Definition leaving_C : World :=
  run [Settles 0 None; CallDisconnect] connected_to_C.

(** [disconnect()] called while [connect()] is parked at the adapter. *)
Definition connecting_and_disconnecting : World := run [CallDisconnect] connecting_to_A.

(** The module-global variant with its first adapter, "Pontem", installed. *)
Definition singleton_heap : AdapterRef -> Adapter.t :=
  fun a => match a with
           | 0 => sample_adapter "Pontem" Installed false
           | _ => sample_adapter "Other" NotDetected false
           end.

Definition singleton_loaded : Singleton.World := Singleton.loaded singleton_heap true.

(** ** Specifications of computations *)

(** [hoare P m Q]: started in a world satisfying [P], the computation [m]
    ends (normally or by throwing) in a world satisfying [Q] for its result.
    Every computation of this development is total, so this is a statement
    about a run that exists. *)
Definition hoare {A} (P : World -> Prop) (m : Js A) (Q : Result A -> World -> Prop) : Prop :=
  forall w, P w -> Q (fst (m w)) (snd (m w)).

(** [preserves I m]: [m] keeps the invariant [I], however it ends. *)
Definition preserves {A} (I : World -> Prop) (m : Js A) : Prop :=
  hoare I m (fun _ => I).

(** * Vocabulary of the further properties *)

(** The URLs handed to [window.open] recorded in a trace. *)
Definition opened_urls (t : list Effect) : list string :=
  omap (fun e => match e with WindowOpen url => Some url | _ => None end) t.

(** No browser: no storage and no window. *)
Definition server_side : World := fresh_instance sample_heap None false.

(** The storage takes the write [select(name)] makes.  [select(null)]
    removes the key, which no storage refuses. *)
Definition accepts (w : World) (name : option WalletName) : bool :=
  match localStorage w with
  | None => false
  | Some st =>
      match name with
      | None => true
      | Some name =>
          negb (Storage.refuses st (Storage.items st) (localStorageKey w) (JSON_stringify name))
      end
  end.

(** A browser whose storage is there but takes no write. *)
Definition private_mode : World :=
  fresh_instance sample_heap
    (Some {| Storage.items := ∅; Storage.refuses := fun _ _ _ => true |}) true.

(** A browser where other code left a text that is not JSON under the
    default key. *)
Definition foreign_text : World :=
  fresh_instance sample_heap
    (Some {| Storage.items := {["walletName" := Malformed]};
             Storage.refuses := fun _ _ _ => false |}) true.

#[global] Instance bridge_listener_dec l : Decision (bridge_listener l).
Proof. unfold bridge_listener. apply _. Defined.

(** The four listeners of the session, as [handleAfterConnect] registers
    them on the adapter [a]: without a context, so with the emitter itself. *)
Definition bridge (a : AdapterRef) : list Listener :=
  [ {| l_event := accountChange; l_fn := handleAddressChangeFn; l_context := a |};
    {| l_event := networkChange; l_fn := handleNetworkChangeFn; l_context := a |};
    {| l_event := disconnectEvent; l_fn := handleDisconnectFn; l_context := a |};
    {| l_event := errorEvent; l_fn := handleErrorFn; l_context := a |} ].

(** The active adapter is the adapter of the active wallet entry. *)
Definition session_bound (w : World) : Prop :=
  adapter w = Wallet.adapter <$> wallet w.

(** Calls that need a browser. *)
Definition is_browser_call (e : Effect) : bool :=
  match e with
  | ConsoleError _ | WindowOpen _ => true
  | _ => false
  end.

Definition browser_calls (t : list Effect) : list Effect := List.filter is_browser_call t.

(** Without a [window] no call that needs one has been made. *)
Definition headless_quiet (w : World) : Prop :=
  window w = false -> browser_calls (trace w) = [].

(** Calls of an operation of an adapter. *)
Definition is_adapter_call (e : Effect) : bool :=
  match e with
  | CallOnError _ _ | ConsoleError _ | WindowOpen _ => false
  | _ => true
  end.

Definition adapter_calls (t : list Effect) : list Effect := List.filter is_adapter_call t.

(** What a run of the [adapters] watcher leaves alone: everything but the
    listeners of the adapters, the wallet entries, the allocation of
    identities and the registration of the clean-up. *)
Definition registry_frame (w w' : World) : Prop :=
  (forall a, Adapter.set_listeners [] (heap w' a) = Adapter.set_listeners [] (heap w a)) /\
  localStorage w' = localStorage w /\ window w' = window w /\ trace w' = trace w /\
  pending w' = pending w /\ adapters w' = adapters w /\
  localStorageKey w' = localStorageKey w /\ autoConnect w' = autoConnect w /\
  onError w' = onError w /\ walletName w' = walletName w /\
  wallet w' = wallet w /\ adapter w' = adapter w /\ account w' = account w /\
  connected w' = connected w /\ connecting w' = connecting w /\
  disconnecting w' = disconnecting w /\ readyState w' = readyState w /\
  walletNetwork w' = walletNetwork w.

(** Every listener is one the composable registers: a readiness arrow for
    the adapter it is registered on, or a session handler for its event. *)
Definition listeners_kinded (w : World) : Prop :=
  forall a l, l ∈ Adapter.listeners (heap w a) ->
    (l_event l = readyStateChange /\ exists fid, l_fn l = ReadyStateArrow fid a) \/
    bridge_listener l.

(** * Reasoning about [Js] computations *)

Section HoareRules.
Context {A B : Type}.

Lemma hoare_bind (P : World -> Prop) (m : Js A) (Q : Result A -> World -> Prop)
    (k : A -> Js B) (Q' : Result B -> World -> Prop) :
  hoare P m Q ->
  (forall a, hoare (Q (Normal a)) (k a) Q') ->
  (forall e w, Q (Thrown e) w -> Q' (Thrown e) w) ->
  hoare P (bind m k) Q'.
Proof.
  intros Hm Hk He w HP. specialize (Hm w HP). unfold bind.
  destruct (m w) as [[a|e] w1]; simpl in *.
  - apply Hk, Hm.
  - apply He, Hm.
Qed.

Lemma hoare_conseq (P P' : World -> Prop) (m : Js A) (Q Q' : Result A -> World -> Prop) :
  hoare P' m Q' -> (forall w, P w -> P' w) -> (forall r w, Q' r w -> Q r w) ->
  hoare P m Q.
Proof. intros H HP HQ w Hw. apply HQ, H, HP, Hw. Qed.

Lemma preserves_bind (I : World -> Prop) (m : Js A) (k : A -> Js B) :
  preserves I m -> (forall a, preserves I (k a)) -> preserves I (bind m k).
Proof. intros Hm Hk. eapply hoare_bind; [exact Hm | exact Hk | auto]. Qed.

Lemma preserves_try_catch (I : World -> Prop) (body : Js A) (handler : Error -> Js A) :
  preserves I body -> (forall e, preserves I (handler e)) -> preserves I (try_catch body handler).
Proof.
  intros Hb Hh w HI. specialize (Hb w HI). unfold try_catch.
  destruct (body w) as [[a|e] w1]; simpl in *; [assumption | apply Hh, Hb].
Qed.

Lemma preserves_try_finally (I : World -> Prop) (body : Js A) (fin : Js unit) :
  preserves I body -> preserves I fin -> preserves I (try_finally body fin).
Proof.
  intros Hb Hf w HI. specialize (Hb w HI). unfold try_finally.
  destruct (body w) as [r w1]; simpl in *. specialize (Hf w1 Hb).
  destruct (fin w1) as [[u|e] w2]; simpl in *; assumption.
Qed.
End HoareRules.

Lemma preserves_for_of {A} (I : World -> Prop) (l : list A) (body : A -> Js unit) :
  (forall x, preserves I (body x)) -> preserves I (for_of l body).
Proof.
  intros Hb. induction l as [|x l IH]; simpl.
  - intros w HI. exact HI.
  - apply (preserves_bind I (body x) (fun _ => for_of l body)); [apply Hb | intros _; exact IH].
Qed.

Lemma preserves_map_js {A B} (I : World -> Prop) (f : A -> Js B) (l : list A) :
  (forall x, preserves I (f x)) -> preserves I (map_js f l).
Proof.
  intros Hf. induction l as [|x l IH]; simpl.
  - intros w HI. exact HI.
  - apply (preserves_bind I (f x) (fun y => bind (map_js f l) (fun ys => ret (y :: ys))));
      [apply Hf | intros y].
    apply (preserves_bind I (map_js f l) (fun ys => ret (y :: ys)));
      [exact IH | intros ys w HI; exact HI].
Qed.

(** Unfolding the loop-free functions down to the primitives. *)
Ltac js_unfold :=
  unfold connect_before_await, connect_after_await, disconnect_before_await,
    disconnect_after_await, signAndSubmitTransaction_before_await,
    signTransaction_before_await, signMessage_before_await, watch_storage,
    call_listener, handleReadyStateChange, readyStateArrow, handleDisconnect,
    handleAfterConnect, handleError, setWalletName, setDefaultState, handleAddressChange,
    handleNetworkChange, init, getWalletNameFromLocalStorage, localStorage_getItem,
    localStorage_setItem, localStorage_removeItem, JSON_parse, console_error, emit_effect,
    on, off,
    fresh, try_catch, try_finally, bind, gets, modify, ret, throw in *.

(** Case analysis on the innermost scrutinee of the goal. *)
Ltac break_match :=
  match goal with
  | |- context [match ?x with _ => _ end] =>
      lazymatch x with
      | context [match _ with _ => _ end] => fail
      | _ => destruct x eqn:?
      end
  end.

Ltac js_cases := repeat (simpl; try break_match); simpl.

(** A loop-free computation: run it symbolically, then [finish]. *)
Ltac pres_leaf finish :=
  unfold preserves, hoare; js_unfold; intros ? ?; js_cases; finish.

(** Follow the structure of the computation through its loops. *)
Ltac pres_go finish :=
  lazymatch goal with
  | |- preserves _ (bind _ _) =>
      apply preserves_bind; [ pres_go finish | intros ?; pres_go finish ]
  | |- preserves _ (for_of _ _) => apply preserves_for_of; intros ?; pres_go finish
  | |- preserves _ (map_js _ _) => apply preserves_map_js; intros ?; pres_go finish
  | |- preserves _ (if ?b then _ else _) => destruct b; pres_go finish
  | |- _ => pres_leaf finish
  end.

Ltac persisted_none :=
  unfold persisted; simpl;
  repeat match goal with H : localStorage _ = _ |- _ => rewrite H end;
  simpl; rewrite ?lookup_delete_eq; reflexivity.

(** As [pres_go], but a computation that has no loop is run as a whole:
    what it binds may matter to what follows. *)
Ltac pres_blocks finish :=
  first
    [ solve [pres_leaf finish]
    | lazymatch goal with
      | |- preserves _ (bind _ _) =>
          apply preserves_bind; [ pres_blocks finish | intros ?; pres_blocks finish ]
      | |- preserves _ (for_of _ _) => apply preserves_for_of; intros ?; pres_blocks finish
      | |- preserves _ (map_js _ _) => apply preserves_map_js; intros ?; pres_blocks finish
      | |- preserves _ (if ?b then _ else _) => destruct b; pres_blocks finish
      end ].

(** * Invariants of the session *)

(** ** Reachable worlds *)

Lemma reachable_run evs w : reachable w -> reachable (run evs w).
Proof.
  intros (h & storage & win & evs0 & ->). exists h, storage, win, (evs0 ++ evs).
  unfold run. rewrite fold_left_app. reflexivity.
Qed.

Lemma reachable_fresh h storage win : reachable (fresh_instance h storage win).
Proof. exists h, storage, win, []. reflexivity. Qed.

Lemma reachable_sample evs : reachable (run evs sample).
Proof. apply reachable_run, reachable_fresh. Qed.

(** ** From the functions to the events

    An invariant that does not look at the parked calls nor at the adapters'
    status, and that every function of the composable preserves, holds in
    every reachable world. *)
Section StepPreserves.
Variable I : World -> Prop.
Hypothesis I_pending : forall p w, I w -> I (set_pending p w).
Hypothesis I_status : forall a r c acc net w,
  I w -> I (update_adapter a (Adapter.set_status r c acc net) w).
Hypothesis I_init : forall p, preserves I (init p).
Hypothesis I_setWalletName : forall name, preserves I (setWalletName name).
Hypothesis I_handleError : forall error, preserves I (handleError error).
Hypothesis I_connect_before : preserves I connect_before_await.
Hypothesis I_connect_after : forall settled, preserves I (connect_after_await settled).
Hypothesis I_disconnect_before : preserves I disconnect_before_await.
Hypothesis I_disconnect_after : forall settled, preserves I (disconnect_after_await settled).
Hypothesis I_sign1 : forall t o, preserves I (signAndSubmitTransaction_before_await t o).
Hypothesis I_sign2 : forall t o, preserves I (signTransaction_before_await t o).
Hypothesis I_sign3 : forall m, preserves I (signMessage_before_await m).
Hypothesis I_emit : forall a e, preserves I (emit a e).
Hypothesis I_watch_adapters : preserves I watch_adapters.
Hypothesis I_watch_readyState : preserves I watch_readyState.
Hypothesis I_watch_storage : preserves I watch_storage.

Lemma connect_from_preserves auto w : I w -> I (snd (connect_from auto w)).
Proof.
  intros HI. unfold connect_from. pose proof (I_connect_before w HI) as H.
  destruct (connect_before_await w) as [[[sel|]|e] w']; simpl in *; auto.
  apply I_pending, H.
Qed.

Lemma disconnect_preserves w : I w -> I (snd (disconnect w)).
Proof.
  intros HI. unfold disconnect. pose proof (I_disconnect_before w HI) as H.
  destruct (disconnect_before_await w) as [[[a|]|e] w']; simpl in *; auto.
  apply I_pending, H.
Qed.

Lemma awaiting_adapter_preserves {A} (m : Js AdapterRef) w :
  preserves I m -> I w -> I (snd (awaiting_adapter (A := A) (m w))).
Proof.
  intros Hm HI. specialize (Hm w HI). unfold awaiting_adapter.
  destruct (m w) as [[a|e] w']; simpl in *; exact Hm.
Qed.

Lemma settle_preserves i settled w : I w -> I (settle i settled w).
Proof.
  intros HI. unfold settle. destruct (pending w !! i) as [k|]; [|exact HI].
  pose proof (I_pending (delete i (pending w)) w HI) as H0.
  destruct k as [sel auto|].
  - pose proof (I_connect_after settled _ H0) as H.
    destruct (connect_after_await settled _) as [[u|e] w']; simpl in *; [exact H|].
    destruct auto; [apply I_handleError, H | exact H].
  - apply I_disconnect_after, H0.
Qed.

Lemma watch_autoConnect_preserves w : I w -> I (watch_autoConnect w).
Proof.
  intros HI. unfold watch_autoConnect.
  destruct (_ || _); [exact HI|].
  pose proof (connect_from_preserves true w HI) as H.
  destruct (connect_from true w) as [[u|e|] w']; simpl in *; auto.
  apply I_handleError, H.
Qed.

Lemma step_preserves w ev : I w -> I (step w ev).
Proof.
  intros HI. destruct ev; simpl.
  - apply I_init, HI.
  - apply I_setWalletName, HI.
  - apply connect_from_preserves, HI.
  - apply disconnect_preserves, HI.
  - apply awaiting_adapter_preserves; [apply I_sign1 | exact HI].
  - apply awaiting_adapter_preserves; [apply I_sign2 | exact HI].
  - apply awaiting_adapter_preserves; [apply I_sign3 | exact HI].
  - apply settle_preserves, HI.
  - apply I_emit, HI.
  - apply I_status, HI.
  - apply I_watch_adapters, HI.
  - apply I_watch_readyState, HI.
  - apply I_watch_storage, HI.
  - apply watch_autoConnect_preserves, HI.
Qed.

Lemma run_preserves evs w : I w -> I (run evs w).
Proof.
  revert w. induction evs as [|ev evs IH]; intros w HI; simpl; [exact HI|].
  apply IH, step_preserves, HI.
Qed.

Lemma reachable_preserves :
  (forall h storage win, I (fresh_instance h storage win)) ->
  forall w, reachable w -> I w.
Proof.
  intros H0 w (h & storage & win & evs & ->). apply run_preserves, H0.
Qed.
End StepPreserves.

(** ** No adapter, empty session *)

Ltac wf_finish := unfold session_wf in *; simpl in *; first [tauto | congruence | intuition congruence].

Lemma wf_init p : preserves session_wf (init p).
Proof. pres_leaf wf_finish. Qed.

Lemma wf_setWalletName name : preserves session_wf (setWalletName name).
Proof. pres_leaf wf_finish. Qed.

Lemma wf_handleError error : preserves session_wf (handleError error).
Proof. pres_leaf wf_finish. Qed.

Lemma wf_connect_before_await : preserves session_wf connect_before_await.
Proof. pres_leaf wf_finish. Qed.

Lemma wf_connect_after_await settled : preserves session_wf (connect_after_await settled).
Proof. pres_leaf wf_finish. Qed.

Lemma wf_disconnect_before_await : preserves session_wf disconnect_before_await.
Proof. pres_leaf wf_finish. Qed.

Lemma wf_disconnect_after_await settled : preserves session_wf (disconnect_after_await settled).
Proof. pres_leaf wf_finish. Qed.

Lemma wf_sign1 t o : preserves session_wf (signAndSubmitTransaction_before_await t o).
Proof. pres_leaf wf_finish. Qed.

Lemma wf_sign2 t o : preserves session_wf (signTransaction_before_await t o).
Proof. pres_leaf wf_finish. Qed.

Lemma wf_sign3 m : preserves session_wf (signMessage_before_await m).
Proof. pres_leaf wf_finish. Qed.

Lemma wf_emit a e : preserves session_wf (emit a e).
Proof. unfold emit. pres_go wf_finish. Qed.

Lemma wf_watch_adapters : preserves session_wf watch_adapters.
Proof. unfold watch_adapters, watch_adapters_cleanup, watch_adapters_callback. pres_go wf_finish. Qed.

Lemma wf_watch_readyState : preserves session_wf watch_readyState.
Proof. unfold watch_readyState. pres_go wf_finish. Qed.

Lemma wf_watch_storage : preserves session_wf watch_storage.
Proof. pres_leaf wf_finish. Qed.

Lemma reachable_session_wf w : reachable w -> session_wf w.
Proof.
  apply reachable_preserves;
    auto using wf_init, wf_setWalletName, wf_handleError, wf_connect_before_await,
      wf_connect_after_await, wf_disconnect_before_await, wf_disconnect_after_await,
      wf_sign1, wf_sign2, wf_sign3, wf_emit, wf_watch_adapters, wf_watch_readyState,
      wf_watch_storage.
  - intros h storage win _. simpl. auto.
Qed.

(** ** The error handler is never installed *)

Ltac nh_finish :=
  unfold no_handler, handler_calls in *; simpl in *;
  rewrite ?omap_app; simpl;
  first [ tauto | congruence | intuition (try congruence);
          match goal with H : omap _ _ = [] |- _ => rewrite H; reflexivity end ].

Lemma nh_init p : preserves no_handler (init p).
Proof. pres_leaf nh_finish. Qed.

Lemma nh_setWalletName name : preserves no_handler (setWalletName name).
Proof. pres_leaf nh_finish. Qed.

Lemma nh_handleError error : preserves no_handler (handleError error).
Proof. pres_leaf nh_finish. Qed.

Lemma nh_connect_before_await : preserves no_handler connect_before_await.
Proof. pres_leaf nh_finish. Qed.

Lemma nh_connect_after_await settled : preserves no_handler (connect_after_await settled).
Proof. pres_leaf nh_finish. Qed.

Lemma nh_disconnect_before_await : preserves no_handler disconnect_before_await.
Proof. pres_leaf nh_finish. Qed.

Lemma nh_disconnect_after_await settled :
  preserves no_handler (disconnect_after_await settled).
Proof. pres_leaf nh_finish. Qed.

Lemma nh_sign1 t o : preserves no_handler (signAndSubmitTransaction_before_await t o).
Proof. pres_leaf nh_finish. Qed.

Lemma nh_sign2 t o : preserves no_handler (signTransaction_before_await t o).
Proof. pres_leaf nh_finish. Qed.

Lemma nh_sign3 m : preserves no_handler (signMessage_before_await m).
Proof. pres_leaf nh_finish. Qed.

Lemma nh_emit a e : preserves no_handler (emit a e).
Proof. unfold emit. pres_go nh_finish. Qed.

Lemma nh_watch_adapters : preserves no_handler watch_adapters.
Proof.
  unfold watch_adapters, watch_adapters_cleanup, watch_adapters_callback.
  pres_go nh_finish.
Qed.

Lemma nh_watch_readyState : preserves no_handler watch_readyState.
Proof. unfold watch_readyState. pres_go nh_finish. Qed.

Lemma nh_watch_storage : preserves no_handler watch_storage.
Proof. pres_leaf nh_finish. Qed.

Lemma reachable_no_handler w : reachable w -> no_handler w.
Proof.
  apply reachable_preserves;
    auto using nh_init, nh_setWalletName, nh_handleError, nh_connect_before_await,
      nh_connect_after_await, nh_disconnect_before_await, nh_disconnect_after_await,
      nh_sign1, nh_sign2, nh_sign3, nh_emit, nh_watch_adapters, nh_watch_readyState,
      nh_watch_storage.
  - intros h storage win. split; reflexivity.
Qed.

(** ** The flags count the parked calls *)

Ltac fl_finish := unfold flags in *; simpl in *; first [tauto | intuition congruence].

Lemma fl_init c d p q : preserves (flags c d p) (init q).
Proof. pres_leaf fl_finish. Qed.

Lemma fl_setWalletName c d p name : preserves (flags c d p) (setWalletName name).
Proof. pres_leaf fl_finish. Qed.

Lemma fl_handleError c d p error : preserves (flags c d p) (handleError error).
Proof. pres_leaf fl_finish. Qed.

Lemma fl_handleDisconnect c d p : preserves (flags c d p) handleDisconnect.
Proof. pres_leaf fl_finish. Qed.

Lemma fl_sign1 c d p t o : preserves (flags c d p) (signAndSubmitTransaction_before_await t o).
Proof. pres_leaf fl_finish. Qed.

Lemma fl_sign2 c d p t o : preserves (flags c d p) (signTransaction_before_await t o).
Proof. pres_leaf fl_finish. Qed.

Lemma fl_sign3 c d p m : preserves (flags c d p) (signMessage_before_await m).
Proof. pres_leaf fl_finish. Qed.

Lemma fl_emit c d p a e : preserves (flags c d p) (emit a e).
Proof. unfold emit. pres_go fl_finish. Qed.

Lemma fl_watch_adapters c d p : preserves (flags c d p) watch_adapters.
Proof.
  unfold watch_adapters, watch_adapters_cleanup, watch_adapters_callback.
  pres_go fl_finish.
Qed.

Lemma fl_watch_readyState c d p : preserves (flags c d p) watch_readyState.
Proof. unfold watch_readyState. pres_go fl_finish. Qed.

Lemma fl_watch_storage c d p : preserves (flags c d p) watch_storage.
Proof. pres_leaf fl_finish. Qed.

(** A function that leaves the flags and the parked calls alone keeps the
    count. *)
Lemma flags_keep_count {A} (m : Js A) w :
  (forall c d p, preserves (flags c d p) m) ->
  flags_count_parked w -> flags_count_parked (snd (m w)).
Proof.
  intros Hm Hc.
  destruct (Hm (connecting w) (disconnecting w) (pending w) w) as (H1 & H2 & H3).
  { repeat split. }
  unfold flags_count_parked, parked_connects, parked_disconnects in *.
  rewrite H1, H2, H3. exact Hc.
Qed.

Lemma connect_before_await_flags w :
  let r := fst (connect_before_await w) in
  let w' := snd (connect_before_await w) in
  pending w' = pending w /\ disconnecting w' = disconnecting w /\
  match r with
  | Normal (Some _) =>
      connecting w = false /\ disconnecting w = false /\ connected w = false /\
      connecting w' = true
  | _ => connecting w' = connecting w
  end.
Proof.
  js_unfold. js_cases; auto.
  apply orb_false_elim in Heqb as [Heqb ?]. apply orb_false_elim in Heqb as [? ?]. auto 6.
Qed.

Lemma connect_after_await_flags settled w :
  let w' := snd (connect_after_await settled w) in
  pending w' = pending w /\ disconnecting w' = disconnecting w /\ connecting w' = false.
Proof. js_unfold. js_cases; auto. Qed.

Lemma disconnect_before_await_flags w :
  let r := fst (disconnect_before_await w) in
  let w' := snd (disconnect_before_await w) in
  pending w' = pending w /\ connecting w' = connecting w /\
  match r with
  | Normal (Some _) => disconnecting w = false /\ disconnecting w' = true
  | _ => disconnecting w' = disconnecting w
  end.
Proof. js_unfold. js_cases; auto. Qed.

Lemma disconnect_after_await_flags settled w :
  let w' := snd (disconnect_after_await settled w) in
  pending w' = pending w /\ connecting w' = connecting w /\ disconnecting w' = false.
Proof.
  unfold disconnect_after_await, try_finally, try_catch, bind, throw, ret, modify.
  assert (H : forall v, let v' := snd (handleDisconnect (set_disconnecting false v)) in
            pending v' = pending v /\ connecting v' = connecting v /\ disconnecting v' = false).
  { intros v. destruct (fl_handleDisconnect (connecting v) false (pending v)
                          (set_disconnecting false v)) as (H1 & H2 & H3);
      [repeat split | simpl; auto]. }
  destruct settled as [error|].
  - destruct (fl_setWalletName (connecting w) (disconnecting w) (pending w) None w)
      as (H1 & H2 & H3); [repeat split|].
    destruct (setWalletName None w) as [[u|e] w1]; simpl in *.
    + specialize (H w1). destruct (handleDisconnect (set_disconnecting false w1)) as [[?|?] ?];
        simpl in *; intuition congruence.
    + specialize (H w1). destruct (handleDisconnect (set_disconnecting false w1)) as [[?|?] ?];
        simpl in *; intuition congruence.
  - specialize (H w). destruct (handleDisconnect (set_disconnecting false w)) as [[?|?] ?];
      simpl in *; intuition congruence.
Qed.

Lemma filter_snoc_length {A} (f : A -> bool) (l : list A) (x : A) :
  length (List.filter f (l ++ [x])) = length (List.filter f l) + Nat.b2n (f x).
Proof. rewrite List.filter_app, length_app. simpl. destruct (f x); reflexivity. Qed.

Lemma filter_delete_length {A} (f : A -> bool) (l : list A) (i : nat) (x : A) :
  l !! i = Some x ->
  length (List.filter f l) = length (List.filter f (delete i l)) + Nat.b2n (f x).
Proof.
  revert i. induction l as [|y l IH]; intros [|i] H; simpl in *; try discriminate.
  - inversion H; subst. destruct (f x); simpl; lia.
  - specialize (IH i H). destruct (f y); simpl; lia.
Qed.

Lemma count_connect_from auto w :
  flags_count_parked w -> flags_count_parked (snd (connect_from auto w)).
Proof.
  intros [Hc Hd]. unfold connect_from.
  pose proof (connect_before_await_flags w) as (Hp & Hdis & Hr).
  destruct (connect_before_await w) as [[[sel|]|e] w']; simpl in *;
    unfold flags_count_parked, parked_connects, parked_disconnects in *; simpl.
  - destruct Hr as (Hf & _ & _ & Ht). rewrite !filter_snoc_length, Hp, Ht, Hdis. simpl.
    rewrite Hf in Hc. simpl in Hc. lia.
  - rewrite Hp, Hr, Hdis. auto.
  - rewrite Hp, Hr, Hdis. auto.
Qed.

Lemma count_disconnect w :
  flags_count_parked w -> flags_count_parked (snd (disconnect w)).
Proof.
  intros [Hc Hd]. unfold disconnect.
  pose proof (disconnect_before_await_flags w) as (Hp & Hcon & Hr).
  destruct (disconnect_before_await w) as [[[a|]|e] w']; simpl in *;
    unfold flags_count_parked, parked_connects, parked_disconnects in *; simpl.
  - destruct Hr as (Hf & Ht). rewrite !filter_snoc_length, Hp, Ht, Hcon. simpl.
    rewrite Hf in Hd. simpl in Hd. lia.
  - rewrite Hp, Hr, Hcon. auto.
  - rewrite Hp, Hr, Hcon. auto.
Qed.

Lemma count_settle i settled w :
  flags_count_parked w -> flags_count_parked (settle i settled w).
Proof.
  intros [Hc Hd]. unfold settle. destruct (pending w !! i) as [k|] eqn:Hk; [|split; assumption].
  pose proof (filter_delete_length is_connect _ _ _ Hk) as Lc.
  pose proof (filter_delete_length is_disconnect _ _ _ Hk) as Ld.
  unfold parked_connects, parked_disconnects in *.
  set (w0 := set_pending (delete i (pending w)) w).
  destruct k as [sel auto|]; simpl in Lc, Ld.
  - pose proof (connect_after_await_flags settled w0) as (Hp & Hdis & Hcon).
    assert (Hbase : flags_count_parked (snd (connect_after_await settled w0))).
    { unfold flags_count_parked, parked_connects, parked_disconnects.
      rewrite Hp, Hdis, Hcon. subst w0. simpl.
      destruct (connecting w); simpl in *; lia. }
    destruct (connect_after_await settled w0) as [[u|e] w']; simpl in *; [exact Hbase|].
    destruct auto; [|exact Hbase].
    apply flags_keep_count; [intros; apply fl_handleError | exact Hbase].
  - pose proof (disconnect_after_await_flags settled w0) as (Hp & Hcon & Hdis).
    unfold flags_count_parked, parked_connects, parked_disconnects.
    rewrite Hp, Hdis, Hcon. subst w0. simpl.
    destruct (disconnecting w); simpl in *; lia.
Qed.

Lemma count_step w ev : flags_count_parked w -> flags_count_parked (step w ev).
Proof.
  intros H. destruct ev; simpl.
  - apply flags_keep_count; [intros; apply fl_init | exact H].
  - apply flags_keep_count; [intros; apply fl_setWalletName | exact H].
  - apply count_connect_from, H.
  - apply count_disconnect, H.
  - unfold signAndSubmitTransaction, awaiting_adapter.
    pose proof (flags_keep_count (signAndSubmitTransaction_before_await transaction option) w
                  (fun c d p => fl_sign1 c d p _ _) H) as H'.
    destruct (signAndSubmitTransaction_before_await _ _ w) as [[?|?] ?]; exact H'.
  - unfold signTransaction, awaiting_adapter.
    pose proof (flags_keep_count (signTransaction_before_await transaction option) w
                  (fun c d p => fl_sign2 c d p _ _) H) as H'.
    destruct (signTransaction_before_await _ _ w) as [[?|?] ?]; exact H'.
  - unfold signMessage, awaiting_adapter.
    pose proof (flags_keep_count (signMessage_before_await msgPayload) w
                  (fun c d p => fl_sign3 c d p _) H) as H'.
    destruct (signMessage_before_await _ w) as [[?|?] ?]; exact H'.
  - apply count_settle, H.
  - apply flags_keep_count; [intros; apply fl_emit | exact H].
  - exact H.
  - apply flags_keep_count; [intros; apply fl_watch_adapters | exact H].
  - apply flags_keep_count; [intros; apply fl_watch_readyState | exact H].
  - apply flags_keep_count; [intros; apply fl_watch_storage | exact H].
  - unfold watch_autoConnect. destruct (_ || _); [exact H|].
    pose proof (count_connect_from true w H) as H'.
    destruct (connect_from true w) as [[u|e|] w']; simpl in *; auto.
    apply flags_keep_count; [intros; apply fl_handleError | exact H'].
Qed.

Lemma reachable_flags_count_parked w : reachable w -> flags_count_parked w.
Proof.
  intros (h & storage & win & evs & ->).
  assert (H0 : flags_count_parked (fresh_instance h storage win)) by (split; reflexivity).
  revert H0. generalize (fresh_instance h storage win).
  induction evs as [|ev evs IH]; intros w H; simpl; [exact H|].
  apply IH, count_step, H.
Qed.

(** ** Object identities of the wallet entries *)

Lemma Forall_lt_mono (l : list Wallet.t) (n m : nat) :
  n <= m -> Forall (fun x => Wallet.id x < n) l -> Forall (fun x => Wallet.id x < m) l.
Proof. intros Hnm H. eapply Forall_impl; [exact H|]. simpl. intros x Hx. lia. Qed.

Lemma handleReadyStateChange_run current isReadyState w :
  handleReadyStateChange current isReadyState w =
  (Normal tt,
   match list_find (same_name w current) (wallets w) with
   | None => w
   | Some (index, currentWallet) =>
       set_wallets
         (<[index := {| Wallet.id := next_id w;
                        Wallet.adapter := Wallet.adapter currentWallet;
                        Wallet.readyState := isReadyState |}]> (wallets w))
         (set_next_id (S (next_id w)) w)
   end).
Proof.
  unfold handleReadyStateChange, findIndex, bind, gets, ret, modify, fresh. simpl.
  destruct (list_find (same_name w current) (wallets w)) as [[index currentWallet]|] eqn:E;
    simpl; [|reflexivity].
  apply list_find_Some in E as (Hl & _ & _). rewrite Hl. simpl.
  rewrite insert_take_drop by (eapply lookup_lt_Some; eassumption).
  reflexivity.
Qed.

Ltac ids_finish :=
  unfold ids_fresh in *; simpl in *;
  first [ assumption
        | eapply Forall_lt_mono; [|eassumption]; lia
        | rewrite !Forall_app; repeat split;
          first [ apply Forall_take | apply Forall_drop | idtac ];
          first [ eapply Forall_lt_mono; [|eassumption]; lia
                | repeat constructor; simpl; lia ] ].

Lemma ids_init p : preserves ids_fresh (init p).
Proof. pres_leaf ids_finish. Qed.

Lemma ids_setWalletName name : preserves ids_fresh (setWalletName name).
Proof. pres_leaf ids_finish. Qed.

Lemma ids_handleError error : preserves ids_fresh (handleError error).
Proof. pres_leaf ids_finish. Qed.

Lemma ids_connect_before_await : preserves ids_fresh connect_before_await.
Proof. pres_leaf ids_finish. Qed.

Lemma ids_connect_after_await settled : preserves ids_fresh (connect_after_await settled).
Proof. pres_leaf ids_finish. Qed.

Lemma ids_disconnect_before_await : preserves ids_fresh disconnect_before_await.
Proof. pres_leaf ids_finish. Qed.

Lemma ids_disconnect_after_await settled : preserves ids_fresh (disconnect_after_await settled).
Proof. pres_leaf ids_finish. Qed.

Lemma ids_sign1 t o : preserves ids_fresh (signAndSubmitTransaction_before_await t o).
Proof. pres_leaf ids_finish. Qed.

Lemma ids_sign2 t o : preserves ids_fresh (signTransaction_before_await t o).
Proof. pres_leaf ids_finish. Qed.

Lemma ids_sign3 m : preserves ids_fresh (signMessage_before_await m).
Proof. pres_leaf ids_finish. Qed.

Lemma ids_handleReadyStateChange current isReadyState :
  preserves ids_fresh (handleReadyStateChange current isReadyState).
Proof.
  intros w H. rewrite handleReadyStateChange_run. simpl.
  destruct (list_find _ _) as [[index currentWallet]|]; [|exact H].
  unfold ids_fresh in *. simpl. apply Forall_insert; [|simpl; lia].
  eapply Forall_lt_mono; [|exact H]. lia.
Qed.

Lemma ids_call_listener fn e : preserves ids_fresh (call_listener fn e).
Proof.
  destruct fn, e; simpl; try apply ids_handleReadyStateChange; pres_leaf ids_finish.
Qed.

Lemma ids_emit a e : preserves ids_fresh (emit a e).
Proof.
  unfold emit. apply preserves_bind; [pres_leaf ids_finish | intros ls].
  apply preserves_for_of. intros l. apply ids_call_listener.
Qed.

Lemma ids_watch_readyState : preserves ids_fresh watch_readyState.
Proof. unfold watch_readyState. pres_go ids_finish. Qed.

Lemma ids_watch_storage : preserves ids_fresh watch_storage.
Proof. pres_leaf ids_finish. Qed.

(** A loop that allocates one identity per element hands out identities
    between the old and the new allocation mark. *)
Lemma map_js_alloc {B} (F : nat -> Js B) (idof : B -> nat) :
  (forall a w, exists y,
      F a w = (Normal y, set_next_id (S (next_id w)) w) /\ idof y = next_id w) ->
  forall ads w, exists ws w',
    map_js F ads w = (Normal ws, w') /\ next_id w <= next_id w' /\
    Forall (fun x => next_id w <= idof x < next_id w') ws.
Proof.
  intros HF. induction ads as [|adpt ads IH]; intros w; simpl.
  - exists [], w. unfold ret. auto.
  - destruct (HF adpt w) as (y & Ey & Hy).
    destruct (IH (set_next_id (S (next_id w)) w)) as (ws & w' & E & Hle & Hall).
    unfold bind. rewrite Ey, E. unfold ret. simpl in *.
    exists (y :: ws), w'. split; [reflexivity|]. split; [lia|].
    constructor; [lia|]. eapply Forall_impl; [exact Hall|]. simpl. intros x Hx. lia.
Qed.

(** The entries built by the watcher carry identities below the next fresh
    one. *)
Lemma map_js_entries (ads : list nat) :
  hoare (fun _ => True)
    (map_js (fun adpt =>
       i <- fresh ;;
       r <- gets (fun w => Adapter.readyState (heap w adpt)) ;;
       ret {| Wallet.id := i; Wallet.adapter := adpt; Wallet.readyState := r |}) ads)
    (fun r w => exists ws, r = Normal ws /\ Forall (fun x => Wallet.id x < next_id w) ws).
Proof.
  intros w _.
  edestruct (map_js_alloc
    (fun adpt =>
       i <- fresh ;;
       r <- gets (fun w => Adapter.readyState (heap w adpt)) ;;
       ret {| Wallet.id := i; Wallet.adapter := adpt; Wallet.readyState := r |})
    Wallet.id) as (ws' & w' & E & _ & Hall).
  { intros a v. eexists. split; reflexivity. }
  rewrite E. simpl. exists ws'. split; [reflexivity|].
  eapply Forall_impl; [exact Hall|]. simpl. intros x Hx. lia.
Qed.

Lemma ids_watch_adapters : preserves ids_fresh watch_adapters.
Proof.
  unfold watch_adapters.
  apply preserves_bind; [pres_leaf ids_finish | intros registered].
  apply preserves_bind; [unfold watch_adapters_cleanup; pres_go ids_finish | intros _].
  unfold preserves, watch_adapters_callback.
  eapply hoare_bind with (Q := fun _ => ids_fresh); [pres_leaf ids_finish | intros ads; cbv beta | auto].
  eapply (hoare_bind ids_fresh _
            (fun r w => exists ws,
               r = Normal ws /\ Forall (fun x => Wallet.id x < next_id w) ws));
    [ eapply hoare_conseq; [apply map_js_entries | intros w _; exact I | intros r w H; exact H]
    | intros ws; cbv beta
    | intros e w (ws & Hws & _); discriminate Hws ].
  eapply hoare_bind with (Q := fun _ => ids_fresh);
    [ intros w (ws' & Hws & H); inversion Hws; subst ws'; exact H | intros _ | auto ].
  change (preserves ids_fresh
    (ads0 <- gets adapters ;;
     for_of ads0 (fun wAdapter =>
       fn <- readyStateArrow wAdapter ;; on wAdapter readyStateChange fn (Some wAdapter)) ;;
     modify (set_cleanup true))).
  pres_go ids_finish.
Qed.

Lemma reachable_ids_fresh w : reachable w -> ids_fresh w.
Proof.
  apply reachable_preserves;
    auto using ids_init, ids_setWalletName, ids_handleError, ids_connect_before_await,
      ids_connect_after_await, ids_disconnect_before_await, ids_disconnect_after_await,
      ids_sign1, ids_sign2, ids_sign3, ids_emit, ids_watch_adapters, ids_watch_readyState,
      ids_watch_storage.
  - intros h storage win. constructor.
Qed.

(** ** Teardown *)

Lemma setWalletName_same_session name w :
  fst (setWalletName name w) = Normal tt /\ same_session w (snd (setWalletName name w)).
Proof. unfold same_session. js_unfold. js_cases; auto 12. Qed.

Lemma setWalletName_None_persisted w : persisted (snd (setWalletName None w)) = None.
Proof. js_unfold. js_cases; persisted_none. Qed.

Lemma setWalletName_None_name w :
  localStorage w <> None -> walletName (snd (setWalletName None w)) = None.
Proof. js_unfold. js_cases; congruence. Qed.

Lemma setWalletName_storage_stays name w :
  localStorage w <> None -> localStorage (snd (setWalletName name w)) <> None.
Proof. js_unfold. js_cases; congruence. Qed.

Lemma handleDisconnect_teardown w :
  let w' := snd (handleDisconnect w) in
  fst (handleDisconnect w) = Normal tt /\
  persisted w' = None /\
  (localStorage w <> None -> walletName w' = None) /\
  connecting w' = connecting w /\ disconnecting w' = disconnecting w /\
  pending w' = pending w /\ adapter w' = None /\
  (adapter w = None ->
     wallet w' = wallet w /\ account w' = account w /\
     walletNetwork w' = walletNetwork w /\ connected w' = connected w) /\
  (forall a, adapter w = Some a ->
     wallet w' = None /\ account w' = None /\ walletNetwork w' = None /\
     connected w' = false /\ detached (heap w' a)).
Proof.
  unfold handleDisconnect.
  destruct (setWalletName_same_session None w) as (Hr & Hh & Hw & Ha & Hacc & Hn & Hc & Hcg & Hd & Hp).
  pose proof (setWalletName_None_persisted w) as Hper.
  pose proof (setWalletName_None_name w) as Hname.
  unfold bind, gets.
  destruct (setWalletName None w) as [r w1]. simpl in *. subst r. rewrite Ha.
  destruct (adapter w) as [a|].
  - unfold off, modify, setDefaultState, update_adapter, persisted, bind in *. simpl.
    split; [reflexivity|]. split; [exact Hper|]. split; [exact Hname|].
    split; [exact Hcg|]. split; [exact Hd|].
    split; [exact Hp|]. split; [reflexivity|]. split; [intros H; discriminate H|].
    intros a0 H. inversion H; subst a0.
    split; [reflexivity|]. split; [reflexivity|]. split; [reflexivity|].
    split; [reflexivity|].
    intros l Hl. rewrite !fn_lookup_insert in Hl. simpl in Hl.
    rewrite !list_elem_of_filter in Hl. unfold listener_matches, bridge_listener in *.
    tauto.
  - simpl. split; [reflexivity|]. split; [exact Hper|]. split; [exact Hname|].
    split; [exact Hcg|]. split; [exact Hd|]. split; [exact Hp|]. split; [exact Ha|].
    split; [intros _; auto|]. intros a H; discriminate H.
Qed.

(** ** Registry swaps *)

Lemma filter_all {A} (P : A -> Prop) `{forall x, Decision (P x)} (l : list A) :
  Forall P l -> filter P l = l.
Proof.
  induction 1 as [|x l Hx Hl IH]; [reflexivity|].
  rewrite filter_cons_True by exact Hx. rewrite IH. reflexivity.
Qed.

(** Looking up an adapter after some were updated. *)
Ltac heap_lookup H :=
  repeat first
    [ rewrite fn_lookup_insert in H
    | match type of H with
      | context [(<[?a := _]> _) ?b] =>
          destruct (decide (a = b));
          [ subst; rewrite fn_lookup_insert in H
          | rewrite (fn_lookup_insert_ne _ a b) in H by assumption ]
      end ].

Ltac aa_finish :=
  unfold arrows_allocated, update_adapter in *; simpl in *;
  match goal with
  | H : forall a l fid wAdapter, _ -> _ -> _ |- _ =>
      let a := fresh "a" in let l := fresh "l" in let fid := fresh "fid" in
      let wa := fresh "wa" in let Hl := fresh "Hl" in let Hfn := fresh "Hfn" in
      intros a l fid wa Hl Hfn;
      heap_lookup Hl; simpl in Hl;
      repeat (rewrite ?list_elem_of_filter, ?elem_of_app, ?list_elem_of_singleton in Hl);
      try (specialize (H a l fid wa));
      intuition (subst; simpl in *; try discriminate; try (inversion Hfn; subst); try lia;
                 eauto using Nat.lt_lt_succ_r)
  end.

Lemma aa_init p : preserves arrows_allocated (init p).
Proof. pres_leaf aa_finish. Qed.

Lemma aa_setWalletName name : preserves arrows_allocated (setWalletName name).
Proof. pres_leaf aa_finish. Qed.

Lemma aa_handleError error : preserves arrows_allocated (handleError error).
Proof. pres_leaf aa_finish. Qed.

Lemma aa_connect_before_await : preserves arrows_allocated connect_before_await.
Proof. pres_leaf aa_finish. Qed.

Lemma aa_disconnect_before_await : preserves arrows_allocated disconnect_before_await.
Proof. pres_leaf aa_finish. Qed.

Lemma aa_handleAfterConnect : preserves arrows_allocated handleAfterConnect.
Proof. pres_leaf aa_finish. Qed.

Lemma aa_handleDisconnect : preserves arrows_allocated handleDisconnect.
Proof. pres_leaf aa_finish. Qed.

Lemma aa_connect_after_await settled : preserves arrows_allocated (connect_after_await settled).
Proof. pres_leaf aa_finish. Qed.

Lemma aa_disconnect_after_await settled :
  preserves arrows_allocated (disconnect_after_await settled).
Proof. pres_leaf aa_finish. Qed.

Lemma aa_sign1 t o : preserves arrows_allocated (signAndSubmitTransaction_before_await t o).
Proof. pres_leaf aa_finish. Qed.

Lemma aa_sign2 t o : preserves arrows_allocated (signTransaction_before_await t o).
Proof. pres_leaf aa_finish. Qed.

Lemma aa_sign3 m : preserves arrows_allocated (signMessage_before_await m).
Proof. pres_leaf aa_finish. Qed.

Lemma aa_emit a e : preserves arrows_allocated (emit a e).
Proof. unfold emit. pres_go aa_finish. Qed.

Lemma aa_watch_readyState : preserves arrows_allocated watch_readyState.
Proof. unfold watch_readyState. pres_go aa_finish. Qed.

Lemma aa_watch_storage : preserves arrows_allocated watch_storage.
Proof. pres_leaf aa_finish. Qed.

Lemma aa_watch_adapters : preserves arrows_allocated watch_adapters.
Proof.
  unfold watch_adapters, watch_adapters_cleanup, watch_adapters_callback.
  pres_blocks aa_finish.
Qed.

Lemma reachable_arrows_allocated h storage win evs :
  (forall a, Adapter.listeners (h a) = []) ->
  arrows_allocated (run evs (fresh_instance h storage win)).
Proof.
  intros Hh. apply run_preserves;
    auto using aa_init, aa_setWalletName, aa_handleError, aa_connect_before_await,
      aa_connect_after_await, aa_disconnect_before_await, aa_disconnect_after_await,
      aa_sign1, aa_sign2, aa_sign3, aa_emit, aa_watch_adapters, aa_watch_readyState,
      aa_watch_storage.
  - intros a r c acc net w H. unfold arrows_allocated, update_adapter in *. simpl.
    intros a' l fid wa Hl Hfn. apply (H a' l fid wa); [|exact Hfn].
    destruct (decide (a = a')) as [->|Hne].
    + rewrite fn_lookup_insert in Hl. exact Hl.
    + rewrite fn_lookup_insert_ne in Hl by exact Hne. exact Hl.
  - intros a l fid wa Hl. simpl in Hl. rewrite Hh in Hl. inversion Hl.
Qed.

(** One round of the clean-up loop: an [off] with a new arrow function. *)
Lemma cleanup_round wAdapter w :
  arrows_allocated w ->
  exists w1,
    (fn <- readyStateArrow wAdapter ;; off wAdapter readyStateChange fn (Some wAdapter)) w
      = (Normal tt, w1) /\
    arrows_allocated w1 /\
    forall a, Adapter.listeners (heap w1 a) = Adapter.listeners (heap w a).
Proof.
  intros Hw. eexists. split; [reflexivity|].
  assert (Hsame : forall a,
    Adapter.listeners
      ((<[wAdapter := Adapter.set_listeners
           (filter (fun l => ~ listener_matches readyStateChange
                                (ReadyStateArrow (next_id w) wAdapter) (Some wAdapter) l)
              (Adapter.listeners (heap w wAdapter))) (heap w wAdapter)]> (heap w)) a) =
    Adapter.listeners (heap w a)).
  { intros a. destruct (decide (wAdapter = a)) as [->|Hne].
    - rewrite fn_lookup_insert. simpl. apply filter_all. apply Forall_forall.
      intros l Hl (_ & Hfn & _). specialize (Hw a l _ _ Hl Hfn). lia.
    - rewrite fn_lookup_insert_ne by exact Hne. reflexivity. }
  split.
  - intros a l fid wa Hl Hfn.
    change (l ∈ Adapter.listeners
      ((<[wAdapter := Adapter.set_listeners
           (filter (fun l => ~ listener_matches readyStateChange
                                (ReadyStateArrow (next_id w) wAdapter) (Some wAdapter) l)
              (Adapter.listeners (heap w wAdapter))) (heap w wAdapter)]> (heap w)) a)) in Hl.
    rewrite Hsame in Hl. specialize (Hw a l fid wa Hl Hfn).
    change (fid < S (next_id w)). lia.
  - exact Hsame.
Qed.

(** The clean-up of the [adapters] watcher unsubscribes nothing. *)
Lemma cleanup_keeps_listeners w :
  arrows_allocated w ->
  exists w1,
    watch_adapters_cleanup w = (Normal tt, w1) /\
    arrows_allocated w1 /\
    forall a, Adapter.listeners (heap w1 a) = Adapter.listeners (heap w a).
Proof.
  unfold watch_adapters_cleanup, bind at 1, gets. simpl.
  generalize (adapters w) as ads. intros ads. revert w.
  induction ads as [|wAdapter ads IH]; intros w Hw; simpl.
  - exists w. unfold ret. auto.
  - unfold bind at 1.
    destruct (cleanup_round wAdapter w Hw) as (w1 & E & Hw1 & Hsame1). rewrite E.
    destruct (IH w1 Hw1) as (w2 & E2 & Hw2 & Hsame2).
    exists w2. split; [exact E2|]. split; [exact Hw2|].
    intros a. rewrite Hsame2. apply Hsame1.
Qed.

Ltac sl_finish :=
  unfold still_listening, update_adapter in *; simpl in *;
  match goal with
  | H : forall a l, _ -> _ |- _ =>
      let a := fresh "a" in let l := fresh "l" in let Hl := fresh "Hl" in
      intros a l Hl; specialize (H a l Hl);
      repeat first
        [ rewrite fn_lookup_insert
        | match goal with
          | |- context [(<[?x := _]> _) ?y] =>
              destruct (decide (x = y));
              [ subst; rewrite fn_lookup_insert
              | rewrite (fn_lookup_insert_ne _ x y) by assumption ]
          end ];
      simpl; rewrite ?elem_of_app; auto
  end.

Lemma callback_keeps_listeners L : preserves (still_listening L) watch_adapters_callback.
Proof. unfold watch_adapters_callback. pres_blocks sl_finish. Qed.

(** A run of the [adapters] watcher takes no listener off any adapter. *)
Lemma watch_adapters_unsubscribes_nothing w a l :
  arrows_allocated w ->
  l ∈ Adapter.listeners (heap w a) ->
  l ∈ Adapter.listeners (heap (snd (watch_adapters w)) a).
Proof.
  intros Hw Hl. unfold watch_adapters, bind at 1, gets. simpl. unfold bind at 1.
  assert (H1 : exists w1,
    (if cleanup w then watch_adapters_cleanup else ret tt) w = (Normal tt, w1) /\
    forall a, Adapter.listeners (heap w1 a) = Adapter.listeners (heap w a)).
  { destruct (cleanup w).
    - destruct (cleanup_keeps_listeners w Hw) as (w1 & E & _ & Hsame). eauto.
    - exists w. split; reflexivity. }
  destruct H1 as (w1 & E & Hsame). rewrite E.
  apply (callback_keeps_listeners (fun a => Adapter.listeners (heap w1 a)) w1).
  - intros a0 l0 H. exact H.
  - rewrite Hsame. exact Hl.
Qed.

(** From a fresh instance whose adapters carry no listener yet, no run of
    the [adapters] watcher ever takes a listener off an adapter: what was
    subscribed stays subscribed through every registry swap. *)
Lemma registry_swap_unsubscribes_nothing h storage win evs a l :
  (forall a, Adapter.listeners (h a) = []) ->
  let w := run evs (fresh_instance h storage win) in
  l ∈ Adapter.listeners (heap w a) ->
  l ∈ Adapter.listeners (heap (step w RunWatchAdapters) a).
Proof.
  intros Hh w Hl. simpl. apply watch_adapters_unsubscribes_nothing; [|exact Hl].
  apply reachable_arrows_allocated, Hh.
Qed.

(** ** The module-global variant *)

(** Reading the computed [wallets] changes nothing but its own cache, and
    does not change what it gives. *)
Lemma read_wallets_frame (w : Singleton.World) :
  Singleton.heap (Singleton.read_wallets w) = Singleton.heap w /\
  Singleton.window (Singleton.read_wallets w) = Singleton.window w /\
  Singleton.trace (Singleton.read_wallets w) = Singleton.trace w /\
  Singleton.adapters (Singleton.read_wallets w) = Singleton.adapters w /\
  Singleton.onError (Singleton.read_wallets w) = Singleton.onError w /\
  Singleton.connecting (Singleton.read_wallets w) = Singleton.connecting w /\
  Singleton.wallets (Singleton.read_wallets w) = Singleton.wallets w /\
  Singleton.read_wallets (Singleton.read_wallets w) = Singleton.read_wallets w.
Proof.
  unfold Singleton.read_wallets, Singleton.wallets.
  destruct (Singleton.first_seen w) eqn:E; simpl; rewrite ?E; repeat split.
Qed.

(** [connect(name)] by what it finds, in terms of the world it starts in. *)
Lemma singleton_connect_run (name : string) (w : Singleton.World) :
  let w0 := Singleton.read_wallets w in
  Singleton.connect name w =
  match find (Singleton.named w name) (Singleton.wallets w) with
  | None => (Rejected WalletNotSelectedError,
             snd (Singleton.handleError WalletNotSelectedError w0))
  | Some selectedWallet =>
      let a := Singleton.adapter selectedWallet in
      if installable (Adapter.readyState (Singleton.heap w a)) then
        (Awaiting,
         Singleton.set_trace (Singleton.trace w ++ [AdapterConnect a])
           (Singleton.set_connecting true w0))
      else
        (Rejected WalletNotReadyError,
         snd (Singleton.handleError WalletNotReadyError
                (if Singleton.window w && truthy (Adapter.url (Singleton.heap w a))
                 then Singleton.set_trace
                        (Singleton.trace w ++ [WindowOpen (Adapter.url (Singleton.heap w a))])
                        w0
                 else w0)))
  end.
Proof.
  unfold Singleton.connect, Singleton.read_wallets, Singleton.wallets, Singleton.named,
    Singleton.handleError.
  destruct (Singleton.first_seen w) eqn:E; simpl; rewrite ?E;
    (destruct (find _ _) as [selectedWallet|]; simpl;
     [ destruct (installable _); simpl;
       [ reflexivity
       | destruct (_ && _); simpl; destruct (Singleton.onError w); reflexivity ]
     | destruct (Singleton.onError w); reflexivity ]).
Qed.

(** ** Counting the calls of the adapter *)

Lemma adapter_connect_calls_snoc t a :
  adapter_connect_calls (t ++ [AdapterConnect a]) = S (adapter_connect_calls t).
Proof.
  unfold adapter_connect_calls. rewrite List.filter_app, length_app. simpl. lia.
Qed.

(** * The claims *)

(** C1, at a failing input.  A fresh instance is initialised with the
    handler 5.  With nothing selected [connect()] rejects with
    [WalletNotSelectedError]; with the undetected wallet "B" selected it
    rejects with [WalletNotReadyError]; with "A" selected and the adapter's
    [connect] rejecting, it rejects with the adapter's error; a
    [signMessage] on the session that is not connected rejects with
    [WalletNotConnectedError]; a [disconnect()] whose adapter call rejects
    passes that error on.  The caller sees each error, but the handler is
    called in none of the five runs: [init] never stored it, and the
    rejections of the adapter are rethrown without going through
    [handleError]. *)
Theorem errors_bypass_handler :
  let w := run [CallInit (init_with_handler 5); RunWatchAdapters] sample in
  let wB := run [CallSelect (Some "B")] w in
  let wA := run [CallSelect (Some "A"); CallConnect] w in
  let wD := run [Settles 0 None; CallDisconnect] wA in
  onError w = None /\
  fst (connect w) = Rejected WalletNotSelectedError /\
  handler_calls (trace (snd (connect w))) = [] /\
  fst (connect wB) = Rejected WalletNotReadyError /\
  handler_calls (trace (snd (connect wB))) = [] /\
  fst (connect_after_await (Some (AdapterError 3)) wA) = Thrown (AdapterError 3) /\
  handler_calls (trace (snd (connect_after_await (Some (AdapterError 3)) wA))) = [] /\
  fst (signMessage 12 wA) = Rejected WalletNotConnectedError /\
  handler_calls (trace (snd (signMessage 12 wA))) = [] /\
  fst (disconnect_after_await (Some (AdapterError 4)) wD) = Thrown (AdapterError 4) /\
  handler_calls (trace (snd (disconnect_after_await (Some (AdapterError 4)) wD))) = [].
Proof. vm_compute. repeat split. Qed.

(** C2, as the code has it.  A call of [connect()] that is rejected at
    once leaves [connecting] and [disconnecting] false; when the error is
    [WalletNotReadyError] the persisted selection has been removed, and the
    session holds the matched entry, its adapter and what was read from the
    adapter.  A call of [connect()] that is rejected because the adapter's
    [connect] rejected ends with [connecting] false and the persisted
    selection removed, and leaves the other session fields as they were
    when the adapter rejected: when the adapter rejects before anything
    else happens, these are the matched entry, its adapter and what was
    read from the adapter when [connect()] started.  [connect()] itself
    never resets the session to idle. *)
Theorem connect_failure_state :
  forall (w w' : World) (e : Error),
    (connect w = (Rejected e, w') ->
       connecting w' = false /\ disconnecting w' = false /\
       (e = WalletNotSelectedError \/
        e = WalletNotReadyError /\ persisted w' = None /\
        exists selectedWallet,
          find (is_selected w) (wallets w) = Some selectedWallet /\
          wallet w' = Some selectedWallet /\
          adapter w' = Some (Wallet.adapter selectedWallet) /\
          connected w' = Adapter.connected (heap w (Wallet.adapter selectedWallet)) /\
          account w' = Adapter.publicAccount (heap w (Wallet.adapter selectedWallet)) /\
          walletNetwork w' = Adapter.network (heap w (Wallet.adapter selectedWallet)))) /\
    (forall settled, connect_after_await settled w = (Thrown e, w') ->
       settled = Some e /\ connecting w' = false /\ persisted w' = None /\
       wallet w' = wallet w /\ adapter w' = adapter w /\ account w' = account w /\
       walletNetwork w' = walletNetwork w /\ connected w' = connected w /\
       disconnecting w' = disconnecting w) /\
    (forall w1, connect w = (Awaiting, w1) ->
       connect_after_await (Some e) w1 = (Thrown e, w') ->
       exists selectedWallet,
         find (is_selected w) (wallets w) = Some selectedWallet /\
         wallet w' = Some selectedWallet /\
         adapter w' = Some (Wallet.adapter selectedWallet) /\
         connected w' = Adapter.connected (heap w (Wallet.adapter selectedWallet)) /\
         account w' = Adapter.publicAccount (heap w (Wallet.adapter selectedWallet)) /\
         walletNetwork w' = Adapter.network (heap w (Wallet.adapter selectedWallet))).
Proof.
  intros w w' e. split; [|split].
  - unfold connect, connect_from. js_unfold. unfold park.
    js_cases; intros H; inversion H; subst; clear H; simpl.
    all: apply orb_false_elim in Heqb as [Heqb _]; apply orb_false_elim in Heqb as [Hc Hd].
    all: split; [exact Hc|]; split; [exact Hd|]; auto.
    all: right; split; [reflexivity|]; split; [persisted_none | eauto 10].
  - intros settled. js_unfold.
    js_cases; intros H; inversion H; subst; clear H; simpl;
      (split; [reflexivity|]; split; [reflexivity|]; split; [persisted_none|]; auto 10).
  - intros w1. unfold connect, connect_from. js_unfold. unfold park.
    js_cases; intros H; inversion H; subst; clear H; simpl;
      js_cases; intros H; inversion H; subst; clear H; simpl; eauto 10.
Qed.

Lemma connect_failure_state_witness :
  (connecting (snd (connect selected_B)) = false /\
   persisted (snd (connect selected_B)) = None /\
   adapter (snd (connect selected_B)) = Some 1) /\
  (connecting (snd (connect_after_await (Some (AdapterError 3)) connecting_to_A)) = false /\
   persisted (snd (connect_after_await (Some (AdapterError 3)) connecting_to_A)) = None /\
   adapter (snd (connect_after_await (Some (AdapterError 3)) connecting_to_A)) = Some 0) /\
  (exists selectedWallet,
     find (is_selected selected_A) (wallets selected_A) = Some selectedWallet /\
     wallet (snd (connect_after_await (Some (AdapterError 3)) (snd (connect selected_A)))) =
       Some selectedWallet).
Proof.
  split; [|split].
  - assert (H : connect selected_B = (Rejected WalletNotReadyError, snd (connect selected_B)))
      by (rewrite (surjective_pairing (connect selected_B)) at 1; f_equal;
          vm_compute; reflexivity).
    destruct (proj1 (connect_failure_state _ _ _) H) as (Hc & _ & [Hn | (_ & Hp & sel & _ & _ & Ha & _)]);
      [discriminate Hn|].
    split; [exact Hc|]. split; [exact Hp|]. vm_compute; reflexivity.
  - assert (H : connect_after_await (Some (AdapterError 3)) connecting_to_A =
                (Thrown (AdapterError 3),
                 snd (connect_after_await (Some (AdapterError 3)) connecting_to_A)))
      by (rewrite (surjective_pairing (connect_after_await _ connecting_to_A)) at 1; f_equal;
          vm_compute; reflexivity).
    destruct (proj1 (proj2 (connect_failure_state _ _ _)) _ H) as (_ & Hc & Hp & _ & Ha & _).
    split; [exact Hc|]. split; [exact Hp|]. rewrite Ha. vm_compute; reflexivity.
  - assert (H1 : connect selected_A = (Awaiting, snd (connect selected_A)))
      by (rewrite (surjective_pairing (connect selected_A)) at 1; f_equal;
          vm_compute; reflexivity).
    assert (H2 : connect_after_await (Some (AdapterError 3)) (snd (connect selected_A)) =
                 (Thrown (AdapterError 3),
                  snd (connect_after_await (Some (AdapterError 3)) (snd (connect selected_A)))))
      by (rewrite (surjective_pairing (connect_after_await _ (snd (connect selected_A)))) at 1;
          f_equal; vm_compute; reflexivity).
    destruct (proj2 (proj2 (connect_failure_state _ _ _)) _ H1 H2) as (sel & Hf & Hw & _).
    exists sel. split; [exact Hf | exact Hw].
Defined.

(** What the rejected call finds depends on what ran while it waited: when
    a [disconnect()] was called and has settled in between, the teardown
    has reset the session, and the rejected [connect()] ends idle. *)
Lemma rejected_connect_after_teardown_is_idle :
  let w := run [CallDisconnect; Settles 1 None] connecting_to_A in
  fst (connect_after_await (Some (AdapterError 3)) w) = Thrown (AdapterError 3) /\
  idle (snd (connect_after_await (Some (AdapterError 3)) w)).
Proof. vm_compute. repeat split. Qed.

(** C2 fails as stated.  With the undetected wallet "B" selected,
    [connect()] rejects with [WalletNotReadyError] and the session keeps
    the entry and the adapter of "B": it is not idle.  With a name no wallet
    carries, [connect()] rejects with [WalletNotSelectedError] and the
    persisted selection is still there. *)
Lemma failed_connect_not_idle :
  (fst (connect selected_B) = Rejected WalletNotReadyError /\
   ~ idle (snd (connect selected_B))) /\
  (fst (connect selected_Z) = Rejected WalletNotSelectedError /\
   persisted (snd (connect selected_Z)) = Some (JSON_stringify "Z")).
Proof.
  split; split.
  - vm_compute; reflexivity.
  - intros (_ & H & _). vm_compute in H. discriminate H.
  - vm_compute; reflexivity.
  - vm_compute; reflexivity.
Qed.

(** In the module-global variant a parked [connect(name)] does not keep
    the next one from the adapter. *)
Lemma singleton_connect_unguarded (name : string) (w : Singleton.World) :
  fst (Singleton.connect name w) = Awaiting ->
  let w1 := snd (Singleton.connect name w) in
  Singleton.connecting w1 = true /\
  fst (Singleton.connect name w1) = Awaiting /\
  adapter_connect_calls (Singleton.trace (snd (Singleton.connect name w1))) =
    S (S (adapter_connect_calls (Singleton.trace w))).
Proof.
  unfold Singleton.connect, Singleton.read_wallets, Singleton.wallets, Singleton.named,
    Singleton.named_dec, Singleton.handleError.
  destruct (Singleton.first_seen w) eqn:Efs; simpl; rewrite ?Efs; simpl;
    (destruct (find _ _) as [selectedWallet|] eqn:E; simpl;
     [ destruct (installable _) eqn:Ei; simpl;
       [ intros _; simpl; rewrite ?Efs; simpl; rewrite ?Efs; simpl; rewrite E; simpl;
         rewrite Ei; simpl;
         split; [reflexivity|]; split; [reflexivity|];
         rewrite !adapter_connect_calls_snoc; reflexivity
       | destruct (_ && _); simpl; destruct (Singleton.onError w); simpl; discriminate ]
     | destruct (Singleton.onError w); simpl; discriminate ]).
Qed.




(** C4.  In every world reachable from a fresh instance by calls of the
    composable, settling of adapter promises, adapter events and watcher
    runs, [connected] being true implies that there is an active adapter. *)
Theorem connected_implies_adapter :
  forall w, reachable w -> connected w = true -> adapter w <> None.
Proof.
  intros w Hr Hc Ha. destruct (reachable_session_wf w Hr Ha) as (_ & _ & _ & Hf).
  congruence.
Qed.

Lemma connected_implies_adapter_witness :
  connected connected_to_C = true /\ adapter connected_to_C <> None.
Proof.
  split; [vm_compute; reflexivity|].
  apply (connected_implies_adapter connected_to_C).
  - exists sample_heap, (Some ∅), true,
      [CallInit (with_wallets [2]); RunWatchAdapters; CallSelect (Some "C"); CallConnect].
    reflexivity.
  - vm_compute; reflexivity.
Defined.

(** C5, as the code has it.  Once the adapter's [disconnect] has settled,
    resolved or rejected, the rest of [disconnect()] sets [disconnecting]
    to false and runs [handleDisconnect], the routine that is also the
    listener of the adapter's own disconnect notification: the persisted
    selection is cleared (and with it the selected name, when there is a
    storage), the four listeners are taken off the active adapter, and
    wallet, adapter, account and network are null and [connected] is false
    afterwards.  [connecting] is not part of the teardown: it stays as it
    was.  A rejection is passed on to the caller after the teardown. *)
Theorem disconnect_teardown :
  forall (w : World) (settled : option Error),
    reachable w ->
    let r := fst (disconnect_after_await settled w) in
    let w' := snd (disconnect_after_await settled w) in
    r = match settled with Some error => Thrown error | None => Normal tt end /\
    disconnecting w' = false /\
    persisted w' = None /\
    (localStorage w <> None -> walletName w' = None) /\
    wallet w' = None /\ adapter w' = None /\ account w' = None /\
    walletNetwork w' = None /\ connected w' = false /\
    connecting w' = connecting w /\
    (forall a, adapter w = Some a -> detached (heap w' a)) /\
    w' = snd (handleDisconnect
                (set_disconnecting false
                   (match settled with
                    | Some _ => snd (setWalletName None w)
                    | None => w
                    end))) /\
    call_listener handleDisconnectFn EmitDisconnect = handleDisconnect.
Proof.
  intros w settled Hr. pose proof (reachable_session_wf w Hr) as Hwf.
  set (w1 := match settled with Some _ => snd (setWalletName None w) | None => w end).
  assert (Hs : same_session w w1).
  { subst w1. destruct settled; [apply setWalletName_same_session|].
    unfold same_session; auto 12. }
  destruct Hs as (Hh & Hw & Ha & Hacc & Hn & Hc & Hcg & Hd & Hp).
  assert (Hls : localStorage w <> None -> localStorage w1 <> None).
  { subst w1. destruct settled; [apply setWalletName_storage_stays | auto]. }
  assert (E : disconnect_after_await settled w =
              (match settled with Some error => Thrown error | None => Normal tt end,
               snd (handleDisconnect (set_disconnecting false w1)))).
  { subst w1. unfold disconnect_after_await, try_finally, try_catch, bind, throw, ret, modify.
    destruct settled as [error|].
    - destruct (setWalletName_same_session None w) as (Hr1 & _).
      destruct (setWalletName None w) as [r1 w1]. simpl in Hr1. subst r1. simpl.
      pose proof (handleDisconnect_teardown (set_disconnecting false w1)) as (Hn1 & _).
      destruct (handleDisconnect (set_disconnecting false w1)) as [r2 w2].
      simpl in Hn1. subst r2. reflexivity.
    - pose proof (handleDisconnect_teardown (set_disconnecting false w)) as (Hn1 & _).
      destruct (handleDisconnect (set_disconnecting false w)) as [r2 w2].
      simpl in Hn1. subst r2. reflexivity. }
  rewrite E. simpl.
  pose proof (handleDisconnect_teardown (set_disconnecting false w1))
    as (_ & Hper & Hname & Hcg' & Hd' & _ & Ha' & Hnone & Hsome).
  simpl in *.
  split; [reflexivity|]. split; [exact Hd'|]. split; [exact Hper|].
  split; [intros Hst; apply Hname, Hls, Hst|].
  assert (Hfields : wallet (snd (handleDisconnect (set_disconnecting false w1))) = None /\
                    account (snd (handleDisconnect (set_disconnecting false w1))) = None /\
                    walletNetwork (snd (handleDisconnect (set_disconnecting false w1))) = None /\
                    connected (snd (handleDisconnect (set_disconnecting false w1))) = false).
  { destruct (adapter w) as [a|] eqn:Eadp.
    - destruct (Hsome a Ha) as (? & ? & ? & ? & _). auto.
    - destruct (Hnone Ha) as (-> & -> & -> & ->).
      rewrite Hw, Hacc, Hn, Hc. apply Hwf. exact Eadp. }
  destruct Hfields as (F1 & F2 & F3 & F4).
  split; [exact F1|]. split; [exact Ha'|]. split; [exact F2|]. split; [exact F3|].
  split; [exact F4|]. split; [congruence|].
  split; [|split; reflexivity].
  intros a Hadp. apply Hsome. congruence.
Qed.

Lemma disconnect_teardown_witness :
  let w' := snd (disconnect_after_await (Some (AdapterError 9)) leaving_C) in
  fst (disconnect_after_await (Some (AdapterError 9)) leaving_C) = Thrown (AdapterError 9) /\
  disconnecting w' = false /\ persisted w' = None /\ adapter w' = None /\
  connected w' = false /\ detached (heap w' 2).
Proof.
  assert (Hr : reachable leaving_C) by (apply reachable_run, reachable_sample).
  destruct (disconnect_teardown leaving_C (Some (AdapterError 9)) Hr)
    as (H1 & H2 & H3 & _ & _ & H5 & _ & _ & H8 & _ & H10 & _).
  split; [exact H1|]. split; [exact H2|]. split; [exact H3|]. split; [exact H5|].
  split; [exact H8|]. apply H10. vm_compute; reflexivity.
Defined.

(** C5 fails as stated.  [disconnect()] is called while a [connect()] is
    parked: it passes its guard and has an active adapter.  When the
    adapter's [disconnect] has resolved and the teardown has run,
    [connecting] is still true: the session is not idle. *)
Lemma teardown_leaves_connecting :
  let w := snd (disconnect connecting_to_A) in
  let w' := snd (disconnect_after_await None w) in
  disconnecting connecting_to_A = false /\ adapter connecting_to_A = Some 0 /\
  fst (disconnect connecting_to_A) = Awaiting /\
  fst (disconnect_after_await None w) = Normal tt /\
  connecting w' = true /\ ~ idle w'.
Proof.
  repeat split; try (vm_compute; reflexivity).
  intros (_ & _ & _ & _ & _ & H & _). vm_compute in H. discriminate H.
Qed.

(** C6, as the code has it.  In every reachable world [connecting] is
    true exactly while one call of [connect()] is parked at the adapter and
    [disconnecting] exactly while one call of [disconnect()] is parked;
    never are two calls of the same kind parked.  A call of [connect()]
    gets to the adapter only when the three flags are false, a call of
    [disconnect()] only when [disconnecting] is false. *)
Theorem flags_follow_parked_calls :
  forall w, reachable w ->
    parked_connects w = Nat.b2n (connecting w) /\
    parked_disconnects w = Nat.b2n (disconnecting w) /\
    (fst (connect w) = Awaiting ->
       connecting w = false /\ disconnecting w = false /\ connected w = false) /\
    (fst (disconnect w) = Awaiting -> disconnecting w = false).
Proof.
  intros w Hr. destruct (reachable_flags_count_parked w Hr) as [Hc Hd].
  split; [exact Hc|]. split; [exact Hd|]. split.
  - unfold connect, connect_from.
    pose proof (connect_before_await_flags w) as (_ & _ & H).
    destruct (connect_before_await w) as [[[sel|]|e] w']; simpl in *; try discriminate.
    intros _. tauto.
  - unfold disconnect.
    pose proof (disconnect_before_await_flags w) as (_ & _ & H).
    destruct (disconnect_before_await w) as [[[a|]|e] w']; simpl in *; try discriminate.
    intros _. tauto.
Qed.

Lemma flags_follow_parked_calls_witness :
  parked_connects connecting_and_disconnecting = 1 /\
  parked_disconnects connecting_and_disconnecting = 1 /\
  connected selected_A = false.
Proof.
  assert (Hr : reachable connecting_and_disconnecting) by (apply reachable_run, reachable_sample).
  assert (Hs : reachable selected_A) by apply reachable_sample.
  destruct (flags_follow_parked_calls _ Hr) as (Hc & Hd & _).
  destruct (flags_follow_parked_calls _ Hs) as (_ & _ & Hg & _).
  split; [rewrite Hc; vm_compute; reflexivity|].
  split; [rewrite Hd; vm_compute; reflexivity|].
  apply Hg. vm_compute; reflexivity.
Defined.

(** C6 fails as stated.  [disconnect()] is guarded by [disconnecting]
    alone, so it starts while [connecting] is true.  [connected] is copied
    from the adapter when [connect()] starts and stays until the teardown,
    so it is true together with [connecting] on an adapter that was
    connected already, and together with [disconnecting] whenever a
    connected session is left. *)
Lemma flags_overlap :
  (reachable connecting_and_disconnecting /\
   connecting connecting_and_disconnecting = true /\
   disconnecting connecting_and_disconnecting = true) /\
  (reachable connected_to_C /\
   connecting connected_to_C = true /\ connected connected_to_C = true) /\
  (reachable leaving_C /\
   disconnecting leaving_C = true /\ connected leaving_C = true).
Proof.
  split; [|split]; (split; [|split; vm_compute; reflexivity]).
  - apply reachable_run, reachable_sample.
  - apply reachable_sample.
  - apply reachable_run, reachable_sample.
Qed.

(** C7, at a failing input.  The registry is swapped from [A] to [B]: the
    clean-up of the watcher reads [adapters.value], which is [B] by then,
    and hands [off] a new arrow function, so the listener registered on A
    is still there.  Swapping from [A] to [A] leaves A with two
    [readyStateChange] listeners.  (Lemma
    [registry_swap_unsubscribes_nothing] shows that no swap ever takes a
    listener off.) *)
Theorem registry_swap_keeps_old_listeners :
  let swapped :=
    run [CallInit (with_wallets [0]); RunWatchAdapters;
         CallInit (with_wallets [1]); RunWatchAdapters] sample in
  let again :=
    run [CallInit (with_wallets [0]); RunWatchAdapters;
         CallInit (with_wallets [0]); RunWatchAdapters] sample in
  adapters swapped = [1] /\
  Adapter.listeners (heap swapped 0) =
    [{| l_event := readyStateChange; l_fn := ReadyStateArrow 1 0; l_context := 0 |}] /\
  Adapter.listeners (heap again 0) =
    [{| l_event := readyStateChange; l_fn := ReadyStateArrow 1 0; l_context := 0 |};
     {| l_event := readyStateChange; l_fn := ReadyStateArrow 4 0; l_context := 0 |}].
Proof. vm_compute. repeat split. Qed.

(** C8, as the code has it.  [handleReadyStateChange(current,
    isReadyState)] looks for the first entry of [wallets] whose adapter
    carries the name of [current].  When there is none, nothing changes.
    When it is at position [index], the list keeps its length, every other
    position holds the very object it held before, and position [index]
    holds a new object with the old entry's adapter and the reported
    readiness.  That entry is the entry of [current] itself when no earlier
    entry's adapter shares its name; otherwise it is the entry of the
    earlier adapter of that name. *)
Theorem readyStateChange_replaces_one_entry :
  forall (w : World) (current : AdapterRef) (isReadyState : WalletReadyState),
    reachable w ->
    let w' := snd (handleReadyStateChange current isReadyState w) in
    ((forall x, x ∈ wallets w -> ~ same_name w current x) -> w' = w) /\
    (forall index old,
       wallets w !! index = Some old ->
       same_name w current old ->
       (forall j y, wallets w !! j = Some y -> j < index -> ~ same_name w current y) ->
       length (wallets w') = length (wallets w) /\
       (forall j, j <> index -> wallets w' !! j = wallets w !! j) /\
       exists new,
         wallets w' !! index = Some new /\
         Wallet.adapter new = Wallet.adapter old /\
         Wallet.readyState new = isReadyState /\
         (forall x, x ∈ wallets w -> Wallet.id x <> Wallet.id new)) /\
    (forall index own,
       wallets w !! index = Some own ->
       Wallet.adapter own = current ->
       (forall j y, wallets w !! j = Some y -> j < index -> ~ same_name w current y) ->
       exists new,
         wallets w' !! index = Some new /\
         Wallet.adapter new = current /\
         Wallet.readyState new = isReadyState).
Proof.
  intros w current isReadyState Hr w'. subst w'.
  rewrite handleReadyStateChange_run. simpl. split; [|split].
  - intros Hnone.
    assert (E : list_find (same_name w current) (wallets w) = None).
    { apply list_find_None. apply Forall_forall. exact Hnone. }
    rewrite E. reflexivity.
  - intros index old Hl Hs Hfirst.
    assert (E : list_find (same_name w current) (wallets w) = Some (index, old)).
    { apply list_find_Some. auto. }
    rewrite E. simpl.
    assert (Hlt : index < length (wallets w)) by (eapply lookup_lt_Some; eassumption).
    split; [apply length_insert|].
    split; [intros j Hj; apply list_lookup_insert_ne; auto|].
    eexists. split; [apply list_lookup_insert_eq; exact Hlt|].
    simpl. split; [reflexivity|]. split; [reflexivity|].
    intros x Hx. pose proof (reachable_ids_fresh w Hr) as Hf.
    unfold ids_fresh in Hf. rewrite Forall_forall in Hf. specialize (Hf x Hx). lia.
  - intros index own Hl Hown Hfirst.
    assert (E : list_find (same_name w current) (wallets w) = Some (index, own)).
    { apply list_find_Some. split; [exact Hl|]. split; [|exact Hfirst].
      unfold same_name. rewrite Hown. reflexivity. }
    rewrite E. simpl.
    assert (Hlt : index < length (wallets w)) by (eapply lookup_lt_Some; eassumption).
    eexists. split; [apply list_lookup_insert_eq; exact Hlt|].
    simpl. split; [exact Hown | reflexivity].
Qed.

Lemma readyStateChange_replaces_one_entry_witness :
  let w' := snd (handleReadyStateChange 1 Installed two_wallets) in
  length (wallets w') = 2 /\
  wallets w' !! 0 = wallets two_wallets !! 0 /\
  exists new,
    wallets w' !! 1 = Some new /\ Wallet.adapter new = 1 /\
    Wallet.readyState new = Installed /\
    (forall x, x ∈ wallets two_wallets -> Wallet.id x <> Wallet.id new).
Proof.
  intros w'.
  assert (Hr : reachable two_wallets) by apply reachable_sample.
  destruct (proj1 (proj2 (readyStateChange_replaces_one_entry two_wallets 1 Installed Hr)) 1
              {| Wallet.id := 1; Wallet.adapter := 1; Wallet.readyState := NotDetected |})
    as (Hlen & Hother & new & Hnew & Hadp & Hrs & Hid).
  - vm_compute; reflexivity.
  - vm_compute; reflexivity.
  - intros j y Hj Hlt. assert (j = 0) by lia. subst j.
    vm_compute in Hj. inversion Hj; subst y. vm_compute. discriminate.
  - split; [exact Hlen|]. split; [apply Hother; discriminate|].
    exists new. auto.
Defined.

(** C8 fails as stated.  The adapters 2 and 3 both carry the name "C" and
    are registered in this order.  When adapter 3 reports that it is no
    longer detected, on its own listener, the entry that is replaced is the
    entry of adapter 2: it now says NotDetected although adapter 2 is
    installed, and the entry of adapter 3 is the object it was, still
    saying Installed. *)
Lemma namesake_entry_replaced :
  let w := run [CallInit (with_wallets [2; 3]); RunWatchAdapters;
                AdapterChanges 3 NotDetected false None None] sample in
  let w' := step w (AdapterEmits 3 (EmitReadyStateChange NotDetected)) in
  wallets w =
    [{| Wallet.id := 0; Wallet.adapter := 2; Wallet.readyState := Installed |};
     {| Wallet.id := 1; Wallet.adapter := 3; Wallet.readyState := Installed |}] /\
  Adapter.listeners (heap w 3) =
    [{| l_event := readyStateChange; l_fn := ReadyStateArrow 3 3; l_context := 3 |}] /\
  w' = snd (handleReadyStateChange 3 NotDetected w) /\
  wallets w' =
    [{| Wallet.id := 4; Wallet.adapter := 2; Wallet.readyState := NotDetected |};
     {| Wallet.id := 1; Wallet.adapter := 3; Wallet.readyState := Installed |}] /\
  Adapter.readyState (heap w' 2) = Installed /\
  Adapter.readyState (heap w' 3) = NotDetected.
Proof. vm_compute. repeat split. Qed.

(** C9.  Each of the three transaction functions rejects with
    [WalletNotSelectedError] when there is no active adapter, with
    [WalletNotConnectedError] when there is one but [connected] is false,
    and otherwise calls the adapter's operation of the same name with the
    arguments it was given and settles with whatever that call settles
    with. *)
Theorem sign_guards_then_delegates :
  forall (w : World) (transaction : Payload) (option : option Payload) (msgPayload : Payload),
    (adapter w = None ->
       fst (signAndSubmitTransaction transaction option w) = Rejected WalletNotSelectedError /\
       fst (signTransaction transaction option w) = Rejected WalletNotSelectedError /\
       fst (signMessage msgPayload w) = Rejected WalletNotSelectedError) /\
    (forall a, adapter w = Some a -> connected w = false ->
       fst (signAndSubmitTransaction transaction option w) = Rejected WalletNotConnectedError /\
       fst (signTransaction transaction option w) = Rejected WalletNotConnectedError /\
       fst (signMessage msgPayload w) = Rejected WalletNotConnectedError) /\
    (forall a, adapter w = Some a -> connected w = true ->
       signAndSubmitTransaction transaction option w =
         (Awaiting,
          set_trace (trace w ++ [AdapterSignAndSubmitTransaction a transaction option]) w) /\
       signTransaction transaction option w =
         (Awaiting, set_trace (trace w ++ [AdapterSignTransaction a transaction option]) w) /\
       signMessage msgPayload w =
         (Awaiting, set_trace (trace w ++ [AdapterSignMessage a msgPayload]) w)) /\
    (forall settled : Result Response, sign_after_await settled = settled).
Proof.
  intros w transaction option msgPayload.
  unfold signAndSubmitTransaction, signTransaction, signMessage, awaiting_adapter.
  js_unfold.
  split; [|split; [|split]].
  - intros ->. simpl. destruct (onError w); auto.
  - intros a -> ->. simpl. destruct (onError w); auto.
  - intros a -> ->. simpl. auto.
  - intros [response|error]; reflexivity.
Qed.

Lemma sign_guards_then_delegates_witness :
  fst (signTransaction 11 None sample) = Rejected WalletNotSelectedError /\
  fst (signMessage 12 connecting_to_A) = Rejected WalletNotConnectedError /\
  signAndSubmitTransaction 11 (Some 3) connected_to_C =
    (Awaiting,
     set_trace (trace connected_to_C ++ [AdapterSignAndSubmitTransaction 2 11 (Some 3)])
       connected_to_C).
Proof.
  split; [|split].
  - apply (sign_guards_then_delegates sample 11 None 0). reflexivity.
  - apply (sign_guards_then_delegates connecting_to_A 0 None 12) with (a := 0);
      vm_compute; reflexivity.
  - apply (sign_guards_then_delegates connected_to_C 11 (Some 3) 0) with (a := 2);
      vm_compute; reflexivity.
Defined.

(** C10.  Whatever handler is passed to [init] on a fresh instance, the
    stored handler stays undefined: the assignment in [init] is guarded by
    the stored handler being set already.  Hence, whatever happens
    afterwards, [handleError] returns its error without calling anything,
    and no call of a handler is ever recorded. *)
Theorem init_never_installs_onError :
  forall h storage win (p : UseWalletsProvider) (evs : list Event),
    let w0 := fresh_instance h storage win in
    onError (snd (init p w0)) = None /\
    let w := run (CallInit p :: evs) w0 in
    onError w = None /\
    (forall error, handleError error w = (Normal error, w)) /\
    handler_calls (trace w) = [].
Proof.
  intros h storage win p evs w0.
  assert (Hr : reachable (run (CallInit p :: evs) w0))
    by (apply reachable_run, reachable_fresh).
  assert (H1 : reachable (run [CallInit p] w0))
    by (apply reachable_run, reachable_fresh).
  apply reachable_no_handler in Hr as [Ho Ht].
  apply reachable_no_handler in H1 as [Ho1 _].
  split; [exact Ho1|]. simpl. split; [exact Ho|]. split; [|exact Ht].
  intros error. unfold handleError, bind, gets, ret. simpl in Ho. rewrite Ho. reflexivity.
Qed.

(** * Further properties *)

(** ** Selection and storage *)

(** [select(name)] on a storage that takes the write. *)
Lemma setWalletName_accepted (w : World) (name : option WalletName) :
  accepts w name = true ->
  exists st,
    localStorage w = Some st /\
    setWalletName name w =
      (Normal tt,
       set_walletName (Name <$> name)
         (set_localStorage
            (Some (Storage.set_items
                     match name with
                     | Some name =>
                         <[localStorageKey w := JSON_stringify name]> (Storage.items st)
                     | None => delete (localStorageKey w) (Storage.items st)
                     end st)) w)).
Proof.
  unfold accepts. destruct (localStorage w) as [st|] eqn:Hs; [|discriminate].
  intros Ha. exists st. split; [reflexivity|].
  js_unfold. destruct name as [name|]; simpl; rewrite Hs; simpl.
  - apply negb_true_iff in Ha. rewrite Ha. reflexivity.
  - reflexivity.
Qed.

(** [select(name)] on a storage that refuses the write. *)
Lemma setWalletName_refused (w : World) (name : option WalletName) :
  localStorage w <> None -> accepts w name = false ->
  setWalletName name w =
    (Normal tt,
     if window w then set_trace (trace w ++ [ConsoleError QuotaExceededError]) w else w).
Proof.
  unfold accepts. intros Hs. destruct (localStorage w) as [st|] eqn:Hst; [|congruence].
  js_unfold. destruct name as [name|]; simpl; [|discriminate].
  intros Ha. apply negb_false_iff in Ha. rewrite Hst. simpl. rewrite Ha. simpl.
  destruct (window w); reflexivity.
Qed.

Lemma setWalletName_accepted_persisted (w : World) (name : option WalletName) :
  accepts w name = true ->
  walletName (snd (setWalletName name w)) = Name <$> name /\
  persisted (snd (setWalletName name w)) = JSON_stringify <$> name.
Proof.
  intros Ha. destruct (setWalletName_accepted w name Ha) as (st & Hs & E). rewrite E.
  unfold persisted. simpl. split; [reflexivity|].
  destruct name; [apply lookup_insert_eq | apply lookup_delete_eq].
Qed.

(** X1.  When the storage takes the write, [select(name)] never fails,
    sets the selected name, calls nothing, and writes through: the
    instance's key holds [JSON.stringify(name)] (nothing after
    [select(null)]) and reading it back with
    [getWalletNameFromLocalStorage] gives [name]; what is stored under
    other keys stays.  When the storage refuses the write, [select(name)]
    does not fail either but selects and stores nothing: all that happens
    is a [console.error] when there is a [window]. *)
Theorem select_then_load :
  forall (w : World) (name : option WalletName),
    (accepts w name = true ->
     let w' := snd (setWalletName name w) in
     fst (setWalletName name w) = Normal tt /\
     walletName w' = Name <$> name /\
     trace w' = trace w /\
     persisted w' = JSON_stringify <$> name /\
     getWalletNameFromLocalStorage (localStorageKey w') w' = (Normal (Name <$> name), w') /\
     forall key, key <> localStorageKey w ->
       (st ← localStorage w'; Storage.items st !! key) =
       (st ← localStorage w; Storage.items st !! key)) /\
    (localStorage w <> None -> accepts w name = false ->
     setWalletName name w =
       (Normal tt,
        if window w then set_trace (trace w ++ [ConsoleError QuotaExceededError]) w else w)).
Proof.
  intros w name. split; [|apply setWalletName_refused].
  intros Ha. destruct (setWalletName_accepted w name Ha) as (st & Hs & E).
  cbv zeta. rewrite E. unfold persisted. simpl. rewrite Hs. simpl.
  split; [reflexivity|]. split; [reflexivity|]. split; [reflexivity|].
  js_unfold. simpl. destruct name as [name|]; simpl.
  - rewrite lookup_insert_eq. simpl. repeat split.
    intros key Hk. apply lookup_insert_ne. congruence.
  - rewrite lookup_delete_eq. simpl. repeat split.
    intros key Hk. apply lookup_delete_ne. congruence.
Qed.

Lemma select_then_load_witness :
  getWalletNameFromLocalStorage "walletName" (snd (setWalletName (Some "A") two_wallets))
    = (Normal (Some (Name "A")), snd (setWalletName (Some "A") two_wallets)) /\
  setWalletName (Some "A") private_mode =
    (Normal tt, set_trace [ConsoleError QuotaExceededError] private_mode).
Proof.
  split.
  - exact (proj1 (proj2 (proj2 (proj2 (proj2
             (proj1 (select_then_load two_wallets (Some "A")) eq_refl)))))).
  - apply (proj2 (select_then_load private_mode (Some "A"))).
    + vm_compute. discriminate.
    + reflexivity.
Defined.

(** X2.  Without a storage, [select(name)] does not fail either, but it
    selects nothing: the selected name stays what it was, and all that
    happens is a [console.error] when there is a [window].  Reading the
    name back gives [null]. *)
Theorem select_without_storage :
  forall (w : World) (name : option WalletName),
    localStorage w = None ->
    let logged := if window w then set_trace (trace w ++ [ConsoleError ReferenceError]) w
                  else w in
    setWalletName name w = (Normal tt, logged) /\
    walletName logged = walletName w /\
    forall key, getWalletNameFromLocalStorage key w = (Normal None, logged).
Proof.
  intros w name Hs. js_unfold. destruct name; simpl; rewrite Hs; simpl;
    destruct (window w); simpl; auto.
Qed.

Lemma select_without_storage_witness :
  setWalletName (Some "A") server_side = (Normal tt, server_side) /\
  walletName server_side = None.
Proof.
  destruct (select_without_storage server_side (Some "A") eq_refl) as (H1 & H2 & _).
  split; [exact H1 | reflexivity].
Defined.

(** What the storage watcher does, by what the instance's key holds. *)
Lemma watch_storage_run (w : World) :
  watch_storage w =
  (Normal tt,
   match localStorage w with
   | None =>
       set_walletName None
         (if window w then set_trace (trace w ++ [ConsoleError ReferenceError]) w else w)
   | Some st =>
       match Storage.items st !! localStorageKey w with
       | Some (JSON_stringify name) => set_walletName (Some (Name name)) w
       | Some (JSON_other truthy) => set_walletName (Some (NotAName truthy)) w
       | Some Malformed =>
           set_walletName None
             (if window w then set_trace (trace w ++ [ConsoleError SyntaxError]) w else w)
       | Some JSON_null | Some EmptyText | None => set_walletName None w
       end
   end).
Proof.
  js_unfold. simpl. destruct (localStorage w) as [st|]; simpl.
  - destruct (Storage.items st !! localStorageKey w) as [[name|  |truthy| | ]|]; simpl;
      try reflexivity.
    destruct (window w); reflexivity.
  - destruct (window w); reflexivity.
Qed.

(** X3.  The storage watcher never fails and never writes to the storage.
    It overwrites the selected name with what the instance's key holds: the
    name, when the text is [JSON.stringify(name)]; the parsed value, when
    the text is JSON for something that is not a string; and [null] when
    the key is absent, when the text is empty, JSON for [null] or not JSON,
    and when there is no storage.  A text that is not JSON is reported
    with [console.error] when there is a [window]; an empty text is not
    parsed at all.  Right after a [select(name)] that the storage took, the
    watcher leaves the selection as it is. *)
Theorem storage_watcher_reloads_name :
  forall (w : World),
    let w' := snd (watch_storage w) in
    fst (watch_storage w) = Normal tt /\
    localStorage w' = localStorage w /\
    (forall name, persisted w = Some (JSON_stringify name) ->
       walletName w' = Some (Name name) /\ trace w' = trace w) /\
    (forall truthy, persisted w = Some (JSON_other truthy) ->
       walletName w' = Some (NotAName truthy) /\ trace w' = trace w) /\
    (persisted w = None \/ persisted w = Some JSON_null \/
     persisted w = Some EmptyText \/ persisted w = Some Malformed ->
       walletName w' = None) /\
    (persisted w = Some Malformed ->
       trace w' = trace w ++ (if window w then [ConsoleError SyntaxError] else [])) /\
    (persisted w = Some EmptyText \/ persisted w = Some JSON_null -> trace w' = trace w) /\
    (forall name, accepts w name = true ->
       walletName (snd (watch_storage (snd (setWalletName name w)))) = Name <$> name).
Proof.
  intros w. cbv zeta. rewrite watch_storage_run. unfold persisted. simpl.
  split; [reflexivity|]. split; [|split; [|split; [|split; [|split; [|split]]]]].
  - destruct (localStorage w) as [st|] eqn:Hs; simpl;
      [destruct (Storage.items st !! localStorageKey w) as [[]|]|]; simpl;
      destruct (window w); simpl; rewrite Hs; reflexivity.
  - intros name. destruct (localStorage w) as [st|]; simpl; [|discriminate].
    intros H. rewrite H. simpl. auto.
  - intros truthy. destruct (localStorage w) as [st|]; simpl; [|discriminate].
    intros H. rewrite H. simpl. auto.
  - destruct (localStorage w) as [st|]; simpl; [|reflexivity].
    intros [H|[H|[H|H]]]; rewrite H; reflexivity.
  - destruct (localStorage w) as [st|]; simpl; [|discriminate].
    intros H. rewrite H. destruct (window w); simpl; rewrite ?app_nil_r; reflexivity.
  - destruct (localStorage w) as [st|]; simpl; [|intros [H|H]; discriminate].
    intros [H|H]; rewrite H; reflexivity.
  - intros name Ha.
    destruct (setWalletName_accepted_persisted w name Ha) as (_ & Hp).
    rewrite watch_storage_run. unfold persisted in Hp.
    destruct (localStorage (snd (setWalletName name w))) as [st|]; simpl in *.
    + rewrite Hp. destruct name; reflexivity.
    + destruct name; [discriminate | reflexivity].
Qed.

Lemma storage_watcher_reloads_name_witness :
  walletName (snd (watch_storage (snd (setWalletName (Some "B") two_wallets))))
    = Some (Name "B") /\
  walletName (snd (watch_storage foreign_text)) = None /\
  trace (snd (watch_storage foreign_text)) = [ConsoleError SyntaxError].
Proof.
  split; [|split].
  - apply (proj2 (proj2 (proj2 (proj2 (proj2 (proj2 (proj2
             (storage_watcher_reloads_name two_wallets)))))))).
    reflexivity.
  - apply (proj1 (proj2 (proj2 (proj2 (proj2 (storage_watcher_reloads_name foreign_text)))))).
    right. right. right. reflexivity.
  - apply (proj1 (proj2 (proj2 (proj2 (proj2 (proj2
             (storage_watcher_reloads_name foreign_text))))))).
    reflexivity.
Defined.

(** X4.  The last [select] that the storage takes wins.  After a first
    selection that the storage took, a second one that it takes as well
    leaves the selected name and the instance's key as the second says, and
    the instance exactly as the second selection alone would when the
    storage would have taken it then too; a second one that the storage
    refuses leaves the first name selected and stored. *)
Theorem select_last_wins :
  forall (w : World) (first second : option WalletName),
    accepts w first = true ->
    let w1 := snd (setWalletName first w) in
    let w2 := snd (setWalletName second w1) in
    (accepts w1 second = true ->
       walletName w2 = Name <$> second /\ persisted w2 = JSON_stringify <$> second) /\
    (accepts w1 second = true -> accepts w second = true ->
       setWalletName second w1 = setWalletName second w) /\
    (accepts w1 second = false ->
       walletName w2 = Name <$> first /\ persisted w2 = JSON_stringify <$> first).
Proof.
  intros w first second Ha1. cbv zeta.
  destruct (setWalletName_accepted_persisted w first Ha1) as (Hn1 & Hp1).
  split; [|split].
  - intros Ha2. apply setWalletName_accepted_persisted, Ha2.
  - revert Ha1. unfold accepts. destruct (localStorage w) as [st|] eqn:Hs; [|discriminate].
    js_unfold. destruct first as [n1|], second as [n2|]; simpl; rewrite Hs; simpl;
      intros H1; rewrite ?(proj1 (negb_true_iff _) H1); simpl;
      intros H2; rewrite ?(proj1 (negb_true_iff _) H2); simpl;
      intros H3; rewrite ?(proj1 (negb_true_iff _) H3); simpl;
      unfold set_walletName, set_localStorage, Storage.set_items; simpl.
    + rewrite insert_insert_eq. reflexivity.
    + rewrite delete_insert_eq. reflexivity.
    + rewrite insert_delete_eq. reflexivity.
    + rewrite delete_delete_eq. reflexivity.
  - intros Ha2.
    assert (Hst : localStorage (snd (setWalletName first w)) <> None).
    { apply setWalletName_storage_stays. unfold accepts in Ha1.
      destruct (localStorage w); [discriminate | discriminate]. }
    rewrite (setWalletName_refused _ second Hst Ha2). simpl.
    destruct (window _); simpl; split; assumption.
Qed.

Lemma select_last_wins_witness :
  setWalletName (Some "B") (snd (setWalletName (Some "A") two_wallets)) =
  setWalletName (Some "B") two_wallets.
Proof.
  apply (proj1 (proj2 (select_last_wins two_wallets (Some "A") (Some "B") eq_refl)));
    reflexivity.
Defined.

(** ** Calls of the composable *)

(** X5.  [init] never fails.  It replaces the adapter list (by the empty
    list when none is given), takes a storage key only when it is a
    non-empty string and [autoConnect] only when it is given.  It does not
    rebuild [wallets] nor touch the session, the storage or the adapters:
    the new list shows in [wallets] only once the watcher has run. *)
Theorem init_sets_options_only :
  forall (p : UseWalletsProvider) (w : World),
    let w' := snd (init p w) in
    fst (init p w) = Normal tt /\
    adapters w' = default [] (p_wallets p) /\
    (p_localStorageKey p = None \/ p_localStorageKey p = Some "" ->
       localStorageKey w' = localStorageKey w) /\
    (forall key, p_localStorageKey p = Some key -> key <> "" -> localStorageKey w' = key) /\
    autoConnect w' = default (autoConnect w) (p_autoConnect p) /\
    wallets w' = wallets w /\ walletName w' = walletName w /\
    same_session w w' /\ localStorage w' = localStorage w /\ trace w' = trace w.
Proof.
  intros p w. destruct p as [pw pe pk pa]. unfold same_session. js_unfold. simpl.
  assert (Hempty : truthy "" = false) by reflexivity.
  assert (Hfull : forall key, key <> "" -> truthy key = true).
  { intros key Hne. unfold truthy. apply negb_true_iff, String.eqb_neq. exact Hne. }
  split; [|split; [|split; [|split]]].
  - js_cases; reflexivity.
  - js_cases; reflexivity.
  - intros [H|H]; inversion H; subst; js_cases; reflexivity.
  - intros key H Hne. inversion H; subst. rewrite (Hfull key Hne). js_cases; reflexivity.
  - js_cases; auto 15.
Qed.

Lemma init_sets_options_only_witness :
  localStorageKey
    (snd (init {| p_wallets := None; p_onError := None; p_localStorageKey := Some "";
                  p_autoConnect := None |} sample)) = "walletName" /\
  localStorageKey
    (snd (init {| p_wallets := None; p_onError := None; p_localStorageKey := Some "k";
                  p_autoConnect := None |} sample)) = "k".
Proof.
  split.
  - apply (proj1 (proj2 (proj2 (init_sets_options_only
             {| p_wallets := None; p_onError := None; p_localStorageKey := Some "";
                p_autoConnect := None |} sample)))). right. reflexivity.
  - apply (proj1 (proj2 (proj2 (proj2 (init_sets_options_only
             {| p_wallets := None; p_onError := None; p_localStorageKey := Some "k";
                p_autoConnect := None |} sample)))) "k"); [reflexivity | discriminate].
Defined.

(** X6.  [connect()] gets to the adapter only for the first wallet that
    carries the selected name, and only when that adapter's own readiness
    is Installed or Loadable.  It then holds the entry and its adapter, has
    copied [connected], [account] and [network] from the adapter, has
    [connecting] set, has called the adapter's [connect] once and nothing
    else, and has left the selection and the storage alone. *)
Theorem connect_reaches_selected_ready_adapter :
  forall (auto : bool) (w : World),
    fst (connect_from auto w) = Awaiting ->
    let w' := snd (connect_from auto w) in
    exists selectedWallet,
      let a := Wallet.adapter selectedWallet in
      find (is_selected w) (wallets w) = Some selectedWallet /\
      walletName w = Some (Name (Adapter.name (heap w a))) /\
      installable (Adapter.readyState (heap w a)) = true /\
      wallet w' = Some selectedWallet /\ adapter w' = Some a /\
      connected w' = Adapter.connected (heap w a) /\
      account w' = Adapter.publicAccount (heap w a) /\
      walletNetwork w' = Adapter.network (heap w a) /\
      connecting w' = true /\
      trace w' = trace w ++ [AdapterConnect a] /\
      pending w' = pending w ++ [PConnect selectedWallet auto] /\
      walletName w' = walletName w /\ localStorage w' = localStorage w /\
      heap w' = heap w.
Proof.
  intros auto w. unfold connect_from. js_unfold. unfold park.
  js_cases; try discriminate. intros _.
  exists t. apply negb_false_iff in Heqb0.
  assert (Hsel : is_selected w t).
  { unfold find in Heqo. destruct (list_find _ _) as [[i x]|] eqn:E; [|discriminate].
    simpl in Heqo. inversion Heqo; subst. apply list_find_Some in E. tauto. }
  repeat split; auto.
Qed.

Lemma connect_reaches_selected_ready_adapter_witness :
  exists selectedWallet,
    adapter (snd (connect_from false selected_A)) = Some (Wallet.adapter selectedWallet) /\
    installable (Adapter.readyState (heap selected_A (Wallet.adapter selectedWallet))) = true.
Proof.
  assert (H : fst (connect_from false selected_A) = Awaiting) by (vm_compute; reflexivity).
  destruct (connect_reaches_selected_ready_adapter false selected_A H)
    as (sel & _ & _ & Hi & _ & Ha & _).
  exists sel. split; [exact Ha | exact Hi].
Defined.



(** X8.  When no entry of [wallets] carries the selected name, or no name
    is selected, [connect()] rejects with [WalletNotSelectedError] and
    changes nothing: the selection stays persisted, the session is as it
    was, no adapter is called and nothing is parked.  All it does is hand
    the error to [handleError]. *)
Theorem connect_without_match_changes_nothing :
  forall (auto : bool) (w : World),
    connecting w || disconnecting w || connected w = false ->
    (forall x, x ∈ wallets w -> ~ is_selected w x) ->
    connect_from auto w =
      (Rejected WalletNotSelectedError, snd (handleError WalletNotSelectedError w)) /\
    (onError w = None -> connect_from auto w = (Rejected WalletNotSelectedError, w)).
Proof.
  intros auto w Hb Hnone.
  assert (Hf : find (is_selected w) (wallets w) = None).
  { unfold find. destruct (list_find _ _) as [[i x]|] eqn:E; [|reflexivity].
    apply list_find_Some in E as (Hl & Hx & _). exfalso.
    apply (Hnone x); [eapply list_elem_of_lookup_2; exact Hl | exact Hx]. }
  assert (E : connect_from auto w =
    (Rejected WalletNotSelectedError, snd (handleError WalletNotSelectedError w))).
  { unfold connect_from, connect_before_await.
    unfold bind at 1. unfold gets at 1. rewrite Hb.
    unfold bind at 1. unfold bind at 1. unfold gets at 1. rewrite Hf.
    unfold bind at 1. unfold handleError, bind, gets, throw, ret, emit_effect, modify.
    cbv beta. destruct (onError w); reflexivity. }
  split; [exact E|].
  intros Ho. rewrite E. unfold handleError, bind, gets, ret. cbv beta. rewrite Ho.
  reflexivity.
Qed.

Lemma connect_without_match_changes_nothing_witness :
  connect_from false selected_Z = (Rejected WalletNotSelectedError, selected_Z).
Proof.
  assert (Hb : connecting selected_Z || disconnecting selected_Z || connected selected_Z
               = false) by (vm_compute; reflexivity).
  assert (Hn : forall x, x ∈ wallets selected_Z -> ~ is_selected selected_Z x).
  { intros x Hx. vm_compute in Hx.
    apply elem_of_cons in Hx as [->|Hx]; [vm_compute; discriminate|].
    apply list_elem_of_singleton in Hx as ->. vm_compute. discriminate. }
  apply (proj2 (connect_without_match_changes_nothing false selected_Z Hb Hn)).
  vm_compute. reflexivity.
Defined.

(** ** Entering a session *)

(** What the resolved part of [connect()] does to the listeners of the
    active adapter. *)
Lemma handleAfterConnect_listeners (w : World) (a : AdapterRef) :
  adapter w = Some a ->
  Adapter.listeners (heap (snd (connect_after_await None w)) a) =
    Adapter.listeners (heap w a) ++ bridge a /\
  adapter (snd (connect_after_await None w)) = Some a.
Proof.
  intros Ha. js_unfold. unfold update_adapter, bridge. simpl. rewrite Ha. simpl.
  rewrite !fn_lookup_insert. simpl. rewrite <- !app_assoc. simpl.
  split; [reflexivity | exact Ha].
Qed.

(** What the teardown does to the listeners of the active adapter. *)
Lemma handleDisconnect_listeners (w : World) (a : AdapterRef) :
  adapter w = Some a ->
  Adapter.listeners (heap (snd (handleDisconnect w)) a) =
    filter (fun l => ~ bridge_listener l) (Adapter.listeners (heap w a)).
Proof.
  intros Ha. unfold handleDisconnect.
  destruct (setWalletName_same_session None w) as (Hr & Hh & _ & Hadp & _).
  unfold bind, gets. destruct (setWalletName None w) as [r w1]. simpl in *. subst r.
  rewrite Hadp, Ha.
  unfold off, setDefaultState, update_adapter, bind, modify. simpl.
  rewrite !fn_lookup_insert, Hh. simpl.
  rewrite !list_filter_filter. apply list_filter_iff. intros l.
  unfold listener_matches, bridge_listener. tauto.
Qed.



(** X10.  The teardown takes off the active adapter exactly the listeners
    registered for one of the four session events with the matching
    session handler, whatever their context; every other listener of that
    adapter stays, in its order, and so do the adapter's own fields and all
    other adapters. *)
Theorem teardown_detaches_only_bridge :
  forall (w : World) (a : AdapterRef),
    adapter w = Some a ->
    let w' := snd (handleDisconnect w) in
    Adapter.listeners (heap w' a) =
      filter (fun l => ~ bridge_listener l) (Adapter.listeners (heap w a)) /\
    Adapter.set_listeners [] (heap w' a) = Adapter.set_listeners [] (heap w a) /\
    (forall b, b <> a -> heap w' b = heap w b).
Proof.
  intros w a Ha. cbv zeta. split; [apply handleDisconnect_listeners, Ha|].
  unfold handleDisconnect.
  destruct (setWalletName_same_session None w) as (Hr & Hh & _ & Hadp & _).
  unfold bind, gets. destruct (setWalletName None w) as [r w1]. simpl in *. subst r.
  rewrite Hadp, Ha.
  unfold off, setDefaultState, update_adapter, bind, modify. simpl.
  rewrite !fn_lookup_insert, Hh. simpl. split.
  - reflexivity.
  - intros b Hb. rewrite !fn_lookup_insert_ne by congruence. reflexivity.
Qed.

Lemma teardown_detaches_only_bridge_witness :
  Adapter.listeners (heap (snd (handleDisconnect leaving_C)) 2) =
    filter (fun l => ~ bridge_listener l) (Adapter.listeners (heap leaving_C 2)).
Proof.
  assert (Ha : adapter leaving_C = Some 2) by (vm_compute; reflexivity).
  exact (proj1 (teardown_detaches_only_bridge leaving_C 2 Ha)).
Defined.

(** X11.  Attaching and detaching cancel out: on an adapter that carries
    none of the session listeners, the listeners after a resolved connect
    followed by a teardown are the ones it had before. *)
Theorem attach_then_teardown_restores_listeners :
  forall (w : World) (a : AdapterRef),
    adapter w = Some a ->
    detached (heap w a) ->
    let connected_world := snd (connect_after_await None w) in
    let w' := snd (handleDisconnect connected_world) in
    Adapter.listeners (heap w' a) = Adapter.listeners (heap w a) /\
    adapter w' = None /\ connected w' = false.
Proof.
  intros w a Ha Hdet.
  destruct (handleAfterConnect_listeners w a Ha) as (Hl & Ha1).
  pose proof (handleDisconnect_listeners _ a Ha1) as Hl2.
  destruct (handleDisconnect_teardown (snd (connect_after_await None w)))
    as (_ & _ & _ & _ & _ & _ & Hnone & _ & Hsome).
  destruct (Hsome a Ha1) as (_ & _ & _ & Hc & _).
  cbv zeta. rewrite Hl2, Hl. split; [|split; assumption].
  rewrite filter_app. unfold bridge, bridge_listener.
  rewrite filter_all; [|apply Forall_forall; exact Hdet].
  rewrite !filter_cons, filter_nil.
  repeat (case_decide; simpl in *; [exfalso; tauto|]). apply app_nil_r.
Qed.

Lemma attach_then_teardown_restores_listeners_witness :
  Adapter.listeners
    (heap (snd (handleDisconnect (snd (connect_after_await None connecting_to_A)))) 0) =
  Adapter.listeners (heap connecting_to_A 0).
Proof.
  assert (Ha : adapter connecting_to_A = Some 0) by (vm_compute; reflexivity).
  assert (Hd : detached (heap connecting_to_A 0)).
  { intros l Hl. vm_compute in Hl. apply list_elem_of_singleton in Hl. subst l.
    unfold bridge_listener. simpl. intuition discriminate. }
  exact (proj1 (attach_then_teardown_restores_listeners connecting_to_A 0 Ha Hd)).
Defined.

(** ** Leaving a session *)




(** ** Two more invariants *)

Ltac sb_finish := unfold session_bound in *; simpl in *; first [assumption | reflexivity | congruence].

Ltac hq_finish :=
  unfold headless_quiet, browser_calls in *; simpl in *;
  rewrite ?List.filter_app; simpl; rewrite ?app_nil_r;
  first [ assumption
        | let Hwin := fresh "Hwin" in
          intros Hwin; rewrite ?Hwin in *; simpl in *;
          first [discriminate | congruence | auto] ].

(** Every function of the composable keeps an invariant that the given
    tactic re-establishes after each assignment. *)
Ltac invariant_by finish :=
  apply reachable_preserves;
  [ solve [ intros ? ? ?; finish ]
  | solve [ intros ? ? ? ? ? ? ?; unfold update_adapter; finish ]
  | solve [ intros ?; pres_leaf finish ]
  | solve [ intros ?; pres_leaf finish ]
  | solve [ intros ?; pres_leaf finish ]
  | solve [ pres_leaf finish ]
  | solve [ intros ?; pres_leaf finish ]
  | solve [ pres_leaf finish ]
  | solve [ intros ?; pres_leaf finish ]
  | solve [ intros ? ?; pres_leaf finish ]
  | solve [ intros ? ?; pres_leaf finish ]
  | solve [ intros ?; pres_leaf finish ]
  | solve [ intros ? ?; unfold emit; pres_go finish ]
  | solve [ unfold watch_adapters, watch_adapters_cleanup, watch_adapters_callback;
            pres_go finish ]
  | solve [ unfold watch_readyState; pres_go finish ]
  | solve [ pres_leaf finish ]
  | solve [ intros ? ? ?; finish ] ].

(** X13.  In every reachable world the active adapter is the adapter of
    the active wallet entry, and there is the one exactly when there is the
    other. *)
Theorem active_adapter_is_wallet_adapter :
  forall w, reachable w -> adapter w = Wallet.adapter <$> wallet w.
Proof.
  change (forall w, reachable w -> session_bound w).
  invariant_by sb_finish.
Qed.

Lemma active_adapter_is_wallet_adapter_witness :
  adapter connected_to_C = Wallet.adapter <$> wallet connected_to_C.
Proof. apply active_adapter_is_wallet_adapter. apply reachable_sample. Defined.

(** X14.  Where there is no [window], the composable never calls
    [console.error] nor [window.open], whatever is called and whatever
    fails. *)
Theorem no_browser_call_without_window :
  forall w, reachable w -> window w = false -> browser_calls (trace w) = [].
Proof.
  change (forall w, reachable w -> headless_quiet w).
  invariant_by hq_finish.
Qed.

Lemma no_browser_call_without_window_witness :
  browser_calls
    (trace (run [CallInit (with_wallets [0; 1]); RunWatchAdapters; CallSelect (Some "B");
                 CallConnect; RunWatchStorage] server_side)) = [].
Proof.
  apply no_browser_call_without_window.
  - apply reachable_run, reachable_fresh.
  - vm_compute. reflexivity.
Defined.

(** ** The registry *)

(** A loop whose rounds end normally ends normally. *)
Lemma for_of_normal {A} (I : World -> Prop) (l : list A) (body : A -> Js unit) :
  (forall x, hoare I (body x) (fun r w => r = Normal tt /\ I w)) ->
  hoare I (for_of l body) (fun r w => r = Normal tt /\ I w).
Proof.
  intros Hb. induction l as [|x l IH]; intros w HI; simpl.
  - split; [reflexivity | exact HI].
  - unfold bind. destruct (Hb x w HI) as (Hr & HI1).
    destruct (body x w) as [r w1]. simpl in *. subst r. apply IH, HI1.
Qed.

Lemma registry_frame_refl w : registry_frame w w.
Proof. unfold registry_frame. repeat split. Qed.

Ltac frame_finish :=
  unfold registry_frame, update_adapter in *; simpl in *;
  intuition (try congruence);
  match goal with
  | H : forall a, _ = _ |- context [(<[?x := _]> _) ?y] =>
      destruct (decide (x = y));
      [ subst; rewrite fn_lookup_insert; apply H
      | rewrite (fn_lookup_insert_ne _ x y) by assumption; apply H ]
  end.

(** One round of the subscription loops changes listeners and allocates. *)
Lemma subscription_round w0 ws (unsubscribe : bool) wAdapter :
  hoare (fun w => registry_frame w0 w /\ wallets w = ws /\ next_id w0 <= next_id w)
    (fn <- readyStateArrow wAdapter ;;
     if unsubscribe then off wAdapter readyStateChange fn (Some wAdapter)
     else on wAdapter readyStateChange fn (Some wAdapter))
    (fun r w => r = Normal tt /\ registry_frame w0 w /\ wallets w = ws /\
                next_id w0 <= next_id w).
Proof.
  intros w (Hf & Hws & Hn). destruct unsubscribe; js_unfold; simpl;
    (split; [reflexivity|]; split; [frame_finish | split; [exact Hws | lia]]).
Qed.

Lemma cleanup_frame w :
  fst (watch_adapters_cleanup w) = Normal tt /\
  registry_frame w (snd (watch_adapters_cleanup w)) /\
  wallets (snd (watch_adapters_cleanup w)) = wallets w /\
  next_id w <= next_id (snd (watch_adapters_cleanup w)).
Proof.
  unfold watch_adapters_cleanup, bind at 1, gets. simpl.
  apply (for_of_normal
           (fun w1 => registry_frame w w1 /\ wallets w1 = wallets w /\ next_id w <= next_id w1)).
  - intros wAdapter. apply (subscription_round w (wallets w) true).
  - split; [apply registry_frame_refl | split; [reflexivity | lia]].
Qed.

(** The entries [adapters.value.map(...)] builds: one new object per
    adapter, in order, with the readiness the adapter reports. *)
Lemma map_js_wallets (ads : list AdapterRef) :
  forall w, exists ws,
    map_js (fun adpt =>
       i <- fresh ;;
       r <- gets (fun w => Adapter.readyState (heap w adpt)) ;;
       ret {| Wallet.id := i; Wallet.adapter := adpt; Wallet.readyState := r |}) ads w =
    (Normal ws, set_next_id (next_id w + length ads) w) /\
    map Wallet.adapter ws = ads /\
    map Wallet.id ws = seq (next_id w) (length ads) /\
    Forall (fun x => Wallet.readyState x = Adapter.readyState (heap w (Wallet.adapter x))) ws.
Proof.
  induction ads as [|adpt ads IH]; intros w; simpl.
  - exists []. unfold ret. rewrite Nat.add_0_r. destruct w. repeat split. constructor.
  - destruct (IH (set_next_id (S (next_id w)) w)) as (ws & E & Ha & Hi & Hr).
    unfold bind at 1. unfold bind at 1. unfold fresh at 1. unfold bind at 1.
    unfold gets at 1. unfold ret at 1. unfold bind at 1. rewrite E. unfold ret.
    eexists. split; [|split; [|split]].
    + simpl. rewrite Nat.add_succ_r. reflexivity.
    + simpl. rewrite Ha. reflexivity.
    + simpl. rewrite Hi. reflexivity.
    + constructor; [reflexivity | exact Hr].
Qed.

Lemma watch_adapters_run (w : World) :
  exists w',
    watch_adapters w = (Normal tt, w') /\
    map Wallet.adapter (wallets w') = adapters w /\
    Forall (fun x => Wallet.readyState x = Adapter.readyState (heap w (Wallet.adapter x)))
           (wallets w') /\
    NoDup (map Wallet.id (wallets w')) /\
    cleanup w' = true /\
    registry_frame w w' /\
    Forall (fun x => next_id w <= Wallet.id x) (wallets w').
Proof.
  unfold watch_adapters. unfold bind at 1. unfold gets at 1.
  unfold bind at 1.
  assert (H1 : exists w1,
    (if cleanup w then watch_adapters_cleanup else ret tt) w = (Normal tt, w1) /\
    registry_frame w w1 /\ next_id w <= next_id w1).
  { destruct (cleanup w).
    - destruct (cleanup_frame w) as (Hr & Hf & _ & Hn).
      destruct (watch_adapters_cleanup w) as [r w1]. simpl in *. subst r. eauto.
    - exists w. split; [reflexivity | split; [apply registry_frame_refl | lia]]. }
  destruct H1 as (w1 & E & Hf1 & Hn1). rewrite E. clear E.
  unfold watch_adapters_callback. unfold bind at 1. unfold gets at 1. unfold bind at 1.
  destruct (map_js_wallets (adapters w1) w1) as (ws & E & Ha & Hi & Hr). rewrite E. clear E.
  unfold bind at 1. unfold modify at 1. unfold bind at 1. unfold gets at 1.
  unfold bind at 1.
  pose proof (for_of_normal
    (fun w2 => registry_frame w w2 /\ wallets w2 = ws /\ next_id w <= next_id w2)
    (adapters w1)
    (fun wAdapter =>
       fn <- readyStateArrow wAdapter ;; on wAdapter readyStateChange fn (Some wAdapter))
    (fun wAdapter => subscription_round w ws false wAdapter)
    (set_wallets ws (set_next_id (next_id w1 + length (adapters w1)) w1))) as H2.
  destruct H2 as (Hr2 & Hf2 & Hws2 & _).
  { split; [|split; [reflexivity | simpl; lia]]. unfold registry_frame in *. simpl. exact Hf1. }
  change (adapters (set_wallets ws (set_next_id (next_id w1 + length (adapters w1)) w1)))
    with (adapters w1).
  destruct (for_of _ _ _) as [r w2]. simpl in *. subst r. unfold modify.
  eexists. split; [reflexivity|]. simpl.
  assert (Hads : adapters w1 = adapters w) by (unfold registry_frame in Hf1; tauto).
  assert (Hready : forall a, Adapter.readyState (heap w1 a) = Adapter.readyState (heap w a)).
  { intros a. destruct Hf1 as (Hh & _). specialize (Hh a).
    apply (f_equal Adapter.readyState) in Hh. exact Hh. }
  rewrite Hws2.
  split; [congruence|].
  split; [eapply Forall_impl; [exact Hr|]; simpl; intros x Hx; rewrite Hx; apply Hready|].
  split; [rewrite Hi; apply NoDup_seq|].
  split; [reflexivity|].
  split; [unfold registry_frame in *; simpl; exact Hf2|].
  apply Forall_forall. intros x Hx.
  assert (Hin : Wallet.id x ∈ seq (next_id w1) (length (adapters w1))).
  { rewrite <- Hi. apply list_elem_of_fmap. exists x. split; [reflexivity | exact Hx]. }
  apply elem_of_seq in Hin. lia.
Qed.

(** X15.  A run of the [adapters] watcher never fails and rebuilds
    [wallets] from [adapters]: one entry per adapter, in the order of the
    list, each with the readiness its adapter reports at that moment.  The
    entries are distinct objects, and in a reachable world they are new:
    none of them is an entry the list held before the run.  Apart from the
    listeners it registers and its own clean-up registration, the run
    leaves the adapters, the selection, the session and the storage as they
    were: the active wallet entry is not refreshed. *)
Theorem adapters_watcher_rebuilds_wallets :
  forall (w : World),
    let w' := snd (watch_adapters w) in
    fst (watch_adapters w) = Normal tt /\
    map Wallet.adapter (wallets w') = adapters w /\
    Forall (fun x => Wallet.readyState x = Adapter.readyState (heap w (Wallet.adapter x)))
           (wallets w') /\
    NoDup (map Wallet.id (wallets w')) /\
    cleanup w' = true /\
    registry_frame w w' /\
    (reachable w ->
     forall new old, new ∈ wallets w' -> old ∈ wallets w -> Wallet.id new <> Wallet.id old).
Proof.
  intros w. destruct (watch_adapters_run w) as (w' & E & Ha & Hr & Hd & Hc & Hf & Hnew).
  rewrite E. simpl. repeat (split; [assumption || reflexivity|]).
  intros Hreach new old Hn Ho.
  pose proof (reachable_ids_fresh w Hreach) as Hfresh. unfold ids_fresh in Hfresh.
  rewrite Forall_forall in Hfresh, Hnew.
  specialize (Hfresh old Ho). specialize (Hnew new Hn). lia.
Qed.

Lemma adapters_watcher_rebuilds_wallets_witness :
  Forall (fun new => Forall (fun old => Wallet.id new <> Wallet.id old) (wallets two_wallets))
         (wallets (snd (watch_adapters two_wallets))).
Proof.
  apply Forall_forall. intros new Hnew. apply Forall_forall. intros old Hold.
  apply (proj2 (proj2 (proj2 (proj2 (proj2 (proj2
           (adapters_watcher_rebuilds_wallets two_wallets))))))
           (reachable_sample _) new old Hnew Hold).
Defined.

(** ** Readiness events *)

Ltac lk_finish :=
  unfold listeners_kinded, update_adapter in *; simpl in *;
  match goal with
  | H : forall a l, _ -> _ |- _ =>
      let a := fresh "a" in let l := fresh "l" in let Hl := fresh "Hl" in
      intros a l Hl;
      heap_lookup Hl; simpl in Hl;
      repeat (rewrite ?list_elem_of_filter, ?elem_of_app, ?list_elem_of_singleton in Hl);
      try (specialize (H a l));
      intuition (subst; simpl in *; unfold bridge_listener; simpl; eauto 10)
  end.

Lemma lk_watch_adapters : preserves listeners_kinded watch_adapters.
Proof.
  unfold watch_adapters, watch_adapters_cleanup, watch_adapters_callback.
  pres_blocks lk_finish.
Qed.

Lemma reachable_listeners_kinded h storage win evs :
  (forall a, Adapter.listeners (h a) = []) ->
  listeners_kinded (run evs (fresh_instance h storage win)).
Proof.
  intros Hh. apply run_preserves.
  - intros ? ? ?; lk_finish.
  - intros a r c acc net w H. unfold listeners_kinded, update_adapter in *. simpl.
    intros a' l Hl. apply (H a' l).
    destruct (decide (a = a')) as [->|Hne].
    + rewrite fn_lookup_insert in Hl. exact Hl.
    + rewrite fn_lookup_insert_ne in Hl by exact Hne. exact Hl.
  - intros ?; pres_leaf lk_finish.
  - intros ?; pres_leaf lk_finish.
  - intros ?; pres_leaf lk_finish.
  - pres_leaf lk_finish.
  - intros ?; pres_leaf lk_finish.
  - pres_leaf lk_finish.
  - intros ?; pres_leaf lk_finish.
  - intros ? ?; pres_leaf lk_finish.
  - intros ? ?; pres_leaf lk_finish.
  - intros ?; pres_leaf lk_finish.
  - intros ? ?; unfold emit; pres_go lk_finish.
  - apply lk_watch_adapters.
  - unfold watch_readyState; pres_go lk_finish.
  - pres_leaf lk_finish.
  - intros a l Hl. simpl in Hl. rewrite Hh in Hl. inversion Hl.
Qed.

(** Where the entry for [current] sits, in terms that survive the
    replacement of entries: the statement of [findIndex] on the adapters. *)
Lemma handleReadyStateChange_at (w : World) (current : AdapterRef)
    (isReadyState : WalletReadyState) (index : nat) (currentWallet : Wallet.t) :
  wallets w !! index = Some currentWallet ->
  same_name w current currentWallet ->
  (forall j y, wallets w !! j = Some y -> j < index -> ~ same_name w current y) ->
  handleReadyStateChange current isReadyState w =
  (Normal tt,
   set_wallets
     (<[index := {| Wallet.id := next_id w;
                    Wallet.adapter := Wallet.adapter currentWallet;
                    Wallet.readyState := isReadyState |}]> (wallets w))
     (set_next_id (S (next_id w)) w)).
Proof.
  intros Hl Hn Hfirst. rewrite handleReadyStateChange_run.
  assert (E : list_find (same_name w current) (wallets w) = Some (index, currentWallet)).
  { apply list_find_Some. auto. }
  rewrite E. reflexivity.
Qed.

(** The listeners of one readiness event, called in turn. *)
Lemma readiness_rounds (h : AdapterRef -> Adapter.t) (a : AdapterRef)
    (isReady : WalletReadyState) (index : nat) (target : AdapterRef)
    (others : nat -> option Wallet.t) (ls : list Listener) :
  Forall (fun l => exists fid, l_fn l = ReadyStateArrow fid a) ls ->
  Adapter.name (h target) = Adapter.name (h a) ->
  (forall j y, j < index -> others j = Some y ->
     Adapter.name (h (Wallet.adapter y)) <> Adapter.name (h a)) ->
  forall w,
    heap w = h ->
    (exists x, wallets w !! index = Some x /\ Wallet.adapter x = target) ->
    (forall j, j <> index -> wallets w !! j = others j) ->
    let w' := snd (for_of ls (fun l => call_listener (l_fn l) (EmitReadyStateChange isReady)) w) in
    fst (for_of ls (fun l => call_listener (l_fn l) (EmitReadyStateChange isReady)) w)
      = Normal tt /\
    heap w' = h /\
    length (wallets w') = length (wallets w) /\
    (forall j, j <> index -> wallets w' !! j = others j) /\
    (exists x, wallets w' !! index = Some x /\ Wallet.adapter x = target /\
               (ls <> [] -> Wallet.readyState x = isReady)).
Proof.
  intros Hls Hname Hothers.
  induction Hls as [|l ls (fid & Hfn) Hls IH]; intros w Hh (x & Hx & Hax) Hrest; simpl.
  - repeat split; auto. exists x. split; [exact Hx|]. split; [exact Hax|]. congruence.
  - unfold bind. rewrite Hfn. simpl.
    rewrite (handleReadyStateChange_at w a isReady index x); [|exact Hx| |].
    + set (w1 := set_wallets _ _).
      assert (Hlen : length (wallets w1) = length (wallets w)).
      { unfold w1. simpl. apply length_insert. }
      assert (Hi : index < length (wallets w)) by (eapply lookup_lt_Some; exact Hx).
      destruct (IH w1) as (Hr & Hh' & Hlen' & Hrest' & (x' & Hx' & Hax' & Hready')).
      * exact Hh.
      * eexists. split; [unfold w1; simpl; apply list_lookup_insert_eq; exact Hi|].
        simpl. exact Hax.
      * intros j Hj. unfold w1. simpl. rewrite list_lookup_insert_ne by congruence.
        apply Hrest, Hj.
      * split; [exact Hr|]. split; [exact Hh'|]. split; [congruence|].
        split; [exact Hrest'|].
        exists x'. split; [exact Hx'|]. split; [exact Hax'|]. intros _.
        destruct ls as [|l' ls']; [|apply Hready'; discriminate].
        simpl in Hx'. unfold w1 in Hx'. simpl in Hx'.
        rewrite list_lookup_insert_eq in Hx' by exact Hi. inversion Hx'. reflexivity.
    + unfold same_name. rewrite Hh, Hax. exact Hname.
    + intros j y Hy Hj. unfold same_name. rewrite Hh.
      apply (Hothers j y Hj). rewrite <- Hrest by lia. exact Hy.
Qed.

(** X16.  From a fresh instance whose adapters carry no listener yet: when
    an adapter that has a readiness listener reports a readiness, the first
    entry of [wallets] carrying that adapter's name ends up with the
    reported readiness, keeps its adapter, and every other entry stays the
    very object it was, also when the adapter has collected several
    listeners over registry swaps.  Nothing fails. *)
Theorem readiness_event_reaches_entry :
  forall (h : AdapterRef -> Adapter.t) (storage : option Storage.t)
         (win : bool) (evs : list Event) (a : AdapterRef) (isReady : WalletReadyState)
         (index : nat) (old : Wallet.t),
    (forall a, Adapter.listeners (h a) = []) ->
    let w := run evs (fresh_instance h storage win) in
    (exists l, l ∈ Adapter.listeners (heap w a) /\ l_event l = readyStateChange) ->
    wallets w !! index = Some old ->
    same_name w a old ->
    (forall j y, wallets w !! j = Some y -> j < index -> ~ same_name w a y) ->
    let w' := snd (emit a (EmitReadyStateChange isReady) w) in
    fst (emit a (EmitReadyStateChange isReady) w) = Normal tt /\
    length (wallets w') = length (wallets w) /\
    (forall j, j <> index -> wallets w' !! j = wallets w !! j) /\
    exists new,
      wallets w' !! index = Some new /\
      Wallet.adapter new = Wallet.adapter old /\
      Wallet.readyState new = isReady.
Proof.
  intros h storage win evs a isReady index old Hh w (l0 & Hl0 & He0) Hold Hname Hfirst.
  pose proof (reachable_listeners_kinded h storage win evs Hh) as Hk. fold w in Hk.
  cbv zeta. unfold emit, bind, gets. simpl.
  set (ls := filter (fun l => l_event l = readyStateChange) (Adapter.listeners (heap w a))).
  assert (Hls : Forall (fun l => exists fid, l_fn l = ReadyStateArrow fid a) ls).
  { apply Forall_forall. intros l Hl. apply list_elem_of_filter in Hl as (Hev & Hl).
    destruct (Hk a l Hl) as [(_ & H)|H]; [exact H|].
    unfold bridge_listener in H. rewrite Hev in H. intuition discriminate. }
  assert (Hne : ls <> []).
  { intros E. assert (Hin : l0 ∈ ls) by (apply list_elem_of_filter; auto).
    rewrite E in Hin. inversion Hin. }
  destruct (readiness_rounds (heap w) a isReady index (Wallet.adapter old)
              (fun j => wallets w !! j) ls Hls Hname) with (w := w)
    as (Hr & _ & Hlen & Hrest & (x & Hx & Hax & Hready)).
  - intros j y Hj Hy. exact (Hfirst j y Hy Hj).
  - reflexivity.
  - exists old. split; [exact Hold | reflexivity].
  - intros j _. reflexivity.
  - split; [exact Hr|]. split; [exact Hlen|]. split; [exact Hrest|].
    exists x. split; [exact Hx|]. split; [exact Hax|]. apply Hready, Hne.
Qed.

Lemma readiness_event_reaches_entry_witness :
  let w := run [CallInit (with_wallets [0; 1]); RunWatchAdapters;
                CallInit (with_wallets [0; 1]); RunWatchAdapters] sample in
  length (Adapter.listeners (heap w 1)) = 2 /\
  exists new,
    wallets (snd (emit 1 (EmitReadyStateChange Installed) w)) !! 1 = Some new /\
    Wallet.adapter new = 1 /\ Wallet.readyState new = Installed.
Proof.
  split; [vm_compute; reflexivity|].
  assert (Hh : forall a, Adapter.listeners (sample_heap a) = []).
  { intros [|[|a]]; reflexivity. }
  assert (Hl : exists l,
    l ∈ Adapter.listeners
          (heap (run [CallInit (with_wallets [0; 1]); RunWatchAdapters;
                      CallInit (with_wallets [0; 1]); RunWatchAdapters] sample) 1) /\
    l_event l = readyStateChange).
  { eexists. split; [vm_compute; apply list_elem_of_here | reflexivity]. }
  assert (Hold :
    wallets (run [CallInit (with_wallets [0; 1]); RunWatchAdapters;
                  CallInit (with_wallets [0; 1]); RunWatchAdapters] sample) !! 1 =
    Some {| Wallet.id := 7; Wallet.adapter := 1; Wallet.readyState := NotDetected |})
    by (vm_compute; reflexivity).
  destruct (readiness_event_reaches_entry sample_heap (Some ∅) true
              [CallInit (with_wallets [0; 1]); RunWatchAdapters;
               CallInit (with_wallets [0; 1]); RunWatchAdapters] 1 Installed 1 _ Hh Hl Hold)
    as (_ & _ & _ & new & Hnew & Hadp & Hr).
  - vm_compute. reflexivity.
  - intros j y Hy Hj. assert (j = 0) by lia. subst j. vm_compute in Hy.
    inversion Hy; subst y. vm_compute. discriminate.
  - exists new. split; [exact Hnew|]. split; [exact Hadp | exact Hr].
Defined.

(** ** Account and network events *)

(** The listeners of an account or network event, called in turn: each of
    them assigns the same value. *)
Lemma refresh_rounds (m : Js unit) (f : World -> World) (e : Emission) (ls : list Listener) :
  (forall w, m w = (Normal tt, f w)) ->
  (forall w, f (f w) = f w) ->
  Forall (fun l => call_listener (l_fn l) e = m) ls ->
  ls <> [] ->
  forall w, for_of ls (fun l => call_listener (l_fn l) e) w = (Normal tt, f w).
Proof.
  intros Hm Hidem Hls. induction Hls as [|l ls Hl Hls IH]; intros Hne w; [congruence|].
  simpl. unfold bind. rewrite Hl, Hm.
  destruct ls as [|l' ls'].
  - reflexivity.
  - rewrite IH by discriminate. rewrite Hidem. reflexivity.
Qed.

(** X17.  From a fresh instance whose adapters carry no listener yet: when
    an adapter that carries the session's account listener emits
    [accountChange], all that happens is that [account] is set to the
    public account of the active adapter, which need not be the emitter;
    likewise [networkChange] sets [network] to the active adapter's
    network.  Nothing else changes and nothing fails. *)
Theorem change_events_read_active_adapter :
  forall (h : AdapterRef -> Adapter.t) (storage : option Storage.t)
         (win : bool) (evs : list Event) (a emitter : AdapterRef),
    (forall a, Adapter.listeners (h a) = []) ->
    let w := run evs (fresh_instance h storage win) in
    adapter w = Some a ->
    ((exists l, l ∈ Adapter.listeners (heap w emitter) /\ l_event l = accountChange) ->
     emit emitter EmitAccountChange w =
       (Normal tt, set_account (Adapter.publicAccount (heap w a)) w)) /\
    ((exists l, l ∈ Adapter.listeners (heap w emitter) /\ l_event l = networkChange) ->
     emit emitter EmitNetworkChange w =
       (Normal tt, set_walletNetwork (Adapter.network (heap w a)) w)).
Proof.
  intros h storage win evs a emitter Hh w Ha.
  pose proof (reachable_listeners_kinded h storage win evs Hh) as Hk. fold w in Hk.
  split; intros (l0 & Hl0 & He0); unfold emit, bind, gets; simpl.
  - rewrite (refresh_rounds handleAddressChange
               (fun w1 => match adapter w1 with
                          | Some a1 => set_account (Adapter.publicAccount (heap w1 a1)) w1
                          | None => w1
                          end)).
    + rewrite Ha. reflexivity.
    + intros w1. js_unfold. destruct (adapter w1); reflexivity.
    + intros w1. destruct (adapter w1) eqn:E; simpl; rewrite ?E; reflexivity.
    + apply Forall_forall. intros l Hl. apply list_elem_of_filter in Hl as (Hev & Hl).
      destruct (Hk emitter l Hl) as [(Hev' & _)|H]; [simpl in Hev; congruence|].
      unfold bridge_listener in H. simpl in Hev. rewrite Hev in H.
      destruct H as [(_ & H)|[(H & _)|[(H & _)|(H & _)]]]; try discriminate.
      rewrite H. reflexivity.
    + intros E. assert (Hin : l0 ∈ filter (fun l => l_event l = accountChange)
                                     (Adapter.listeners (heap w emitter)))
        by (apply list_elem_of_filter; auto).
      simpl in E. rewrite E in Hin. inversion Hin.
  - rewrite (refresh_rounds handleNetworkChange
               (fun w1 => match adapter w1 with
                          | Some a1 => set_walletNetwork (Adapter.network (heap w1 a1)) w1
                          | None => w1
                          end)).
    + rewrite Ha. reflexivity.
    + intros w1. js_unfold. destruct (adapter w1); reflexivity.
    + intros w1. destruct (adapter w1) eqn:E; simpl; rewrite ?E; reflexivity.
    + apply Forall_forall. intros l Hl. apply list_elem_of_filter in Hl as (Hev & Hl).
      destruct (Hk emitter l Hl) as [(Hev' & _)|H]; [simpl in Hev; congruence|].
      unfold bridge_listener in H. simpl in Hev. rewrite Hev in H.
      destruct H as [(H & _)|[(_ & H)|[(H & _)|(H & _)]]]; try discriminate.
      rewrite H. reflexivity.
    + intros E. assert (Hin : l0 ∈ filter (fun l => l_event l = networkChange)
                                     (Adapter.listeners (heap w emitter)))
        by (apply list_elem_of_filter; auto).
      simpl in E. rewrite E in Hin. inversion Hin.
Qed.

Lemma change_events_read_active_adapter_witness :
  let w := run [CallInit (with_wallets [0; 1]); RunWatchAdapters; CallSelect (Some "A");
                CallConnect; Settles 0 None] sample in
  emit 0 EmitAccountChange w =
    (Normal tt, set_account (Adapter.publicAccount (heap w 0)) w).
Proof.
  assert (Hh : forall a, Adapter.listeners (sample_heap a) = []).
  { intros [|[|a]]; reflexivity. }
  assert (Ha : adapter (run [CallInit (with_wallets [0; 1]); RunWatchAdapters;
                             CallSelect (Some "A"); CallConnect; Settles 0 None] sample)
               = Some 0) by (vm_compute; reflexivity).
  apply (proj1 (change_events_read_active_adapter sample_heap (Some ∅) true
                  [CallInit (with_wallets [0; 1]); RunWatchAdapters; CallSelect (Some "A");
                   CallConnect; Settles 0 None] 0 0 Hh Ha)).
  exists {| l_event := accountChange; l_fn := handleAddressChangeFn; l_context := 0 |}.
  split; [|reflexivity]. apply (bool_decide_unpack _). vm_compute. exact I.
Defined.


(** ** The watchers of the selection *)

(** The loop of the readiness watcher in closed form. *)
Lemma watch_readyState_loop (l : list Wallet.t) :
  forall w,
    for_of l (fun item =>
      same <- gets (fun w => bool_decide (is_selected w item)) ;;
      if same : bool
      then modify (fun w => set_readyState (Adapter.readyState (heap w (Wallet.adapter item))) w)
      else ret tt) w =
    (Normal tt,
     match last (filter (is_selected w) l) with
     | Some item => set_readyState (Adapter.readyState (heap w (Wallet.adapter item))) w
     | None => w
     end).
Proof.
  induction l as [|x l IH]; intros w; [reflexivity|].
  simpl. unfold bind at 1. unfold bind at 1. unfold gets at 1.
  rewrite filter_cons. destruct (decide (is_selected w x)) as [Hx|Hx].
  - rewrite bool_decide_eq_true_2 by exact Hx. unfold modify at 1. rewrite IH.
    change (filter (is_selected (set_readyState _ w)) l) with (filter (is_selected w) l).
    rewrite last_cons. destruct (last (filter (is_selected w) l)); reflexivity.
  - rewrite bool_decide_eq_false_2 by exact Hx. unfold ret at 1. apply IH.
Qed.

(** X18.  The readiness watcher never fails and writes [readyState] only:
    it ends with the readiness that the adapter of the last entry carrying
    the selected name reports at that moment, not the readiness recorded in
    the entry, and it leaves [readyState] alone when no entry carries the
    selected name. *)
Theorem readyState_watcher_takes_last_match :
  forall (w : World),
    watch_readyState w =
    (Normal tt,
     match last (filter (is_selected w) (wallets w)) with
     | Some item => set_readyState (Adapter.readyState (heap w (Wallet.adapter item))) w
     | None => w
     end).
Proof. intros w. unfold watch_readyState, bind, gets. apply watch_readyState_loop. Qed.

(** What [connect()] adds to the calls of the adapter and to the parked
    calls. *)
Lemma connect_from_calls (auto : bool) (w : World) :
  let w' := snd (connect_from auto w) in
  (fst (connect_from auto w) <> Awaiting /\
   adapter_connect_calls (trace w') = adapter_connect_calls (trace w) /\
   pending w' = pending w) \/
  (exists selectedWallet,
     fst (connect_from auto w) = Awaiting /\
     find (is_selected w) (wallets w) = Some selectedWallet /\
     adapter_connect_calls (trace w') = S (adapter_connect_calls (trace w)) /\
     pending w' = pending w ++ [PConnect selectedWallet auto]).
Proof.
  unfold connect_from, park, adapter_connect_calls. js_unfold.
  js_cases; rewrite ?List.filter_app, ?length_app; simpl; rewrite ?Nat.add_0_r;
    first [ left; split; [discriminate|]; split; reflexivity
          | right; eexists; repeat split; lia ].
Qed.

(** X19.  The auto-connect watcher does nothing while [connecting] or
    [connected] is true, while no name, the empty name or a falsy value
    loaded from the storage is selected, while
    [autoConnect] is off, and while [readyState] is Unsupported, as on a
    fresh instance.  A run of the watcher calls the adapter's [connect] at
    most once, and only for the first entry carrying the selected name; the
    call it parks is marked as its own. *)
Theorem autoConnect_watcher_connects_at_most_once :
  forall (w : World),
    let w' := watch_autoConnect w in
    (connecting w = true \/ connected w = true \/ walletName w = None \/
     walletName w = Some (Name "") \/ walletName w = Some (NotAName false) \/
     autoConnect w = false \/ readyState w = Unsupported ->
     w' = w) /\
    ((adapter_connect_calls (trace w') = adapter_connect_calls (trace w) /\
      pending w' = pending w) \/
     (exists selectedWallet,
        find (is_selected w) (wallets w) = Some selectedWallet /\
        adapter_connect_calls (trace w') = S (adapter_connect_calls (trace w)) /\
        pending w' = pending w ++ [PConnect selectedWallet true])).
Proof.
  intros w. split.
  - unfold watch_autoConnect.
    intros [H|[H|[H|[H|[H|[H|H]]]]]]; rewrite H; simpl; rewrite ?orb_true_r; reflexivity.
  - unfold watch_autoConnect. destruct (_ || _); [left; auto|].
    destruct (connect_from_calls true w) as [(Hne & Hc & Hp)|(sel & Hr & Hf & Hc & Hp)].
    + left. destruct (connect_from true w) as [[u|e|] w1]; simpl in *; try tauto.
      unfold adapter_connect_calls in *. js_unfold.
      js_cases; rewrite ?List.filter_app, ?length_app; simpl; rewrite ?Nat.add_0_r; auto.
    + right. exists sel. destruct (connect_from true w) as [[u|e|] w1]; simpl in *;
        try discriminate. auto.
Qed.

Lemma autoConnect_watcher_connects_at_most_once_witness :
  watch_autoConnect sample = sample /\
  watch_autoConnect connecting_to_A = connecting_to_A.
Proof.
  split.
  - apply (proj1 (autoConnect_watcher_connects_at_most_once sample)).
    right. right. left. reflexivity.
  - apply (proj1 (autoConnect_watcher_connects_at_most_once connecting_to_A)).
    left. vm_compute. reflexivity.
Defined.

(** ** The module-global variant *)


